(** * pythonformula: the uv.lock to Homebrew resource converter of [main.py]

    A shallow embedding of [src/main.py].  Python [str] values are sequences
    of code points; the four regular expressions of the module are kept as
    patterns and run by a small backtracking matcher that follows what
    [re.match] does on them; [sys.stdin], [sys.stdout] and the single
    [StdinReader] object form the world that the walker's functions thread
    through a state-and-exception monad.

    [debug] writes to [sys.stderr] only (and only when [verbose] is set); it
    never touches the reader or [sys.stdout], and the f-strings handed to
    it only read the reader ([peek] after a successful [has_next], the
    buffer, the counter).  The trace is therefore left out of the world,
    and with it the [--verbose] flag that [main] parses. *)

From Stdlib Require Import String Ascii DecimalString.
From Stdlib Require Import ZArith NArith Lia Bool List.
Import ListNotations.
Open Scope list_scope.

(** ** Strings *)

Definition char := N.
Definition str := list char.

(** An ASCII literal of the source as a [str]. *)
Definition lit (s : string) : str := map N_of_ascii (list_ascii_of_string s).

Definition nl : char := 10%N.      (* newline *)
Definition dq : char := 34%N.      (* the double quote *)
Definition hyphen : char := 45%N.  (* minus sign *)
Definition underscore : char := 95%N.

Fixpoint str_eqb (a b : str) : bool :=
  match a, b with
  | [], [] => true
  | x :: a', y :: b' => N.eqb x y && str_eqb a' b'
  | _, _ => false
  end.

(** [s.rstrip] of the newline: every trailing newline is removed. *)
Fixpoint rstrip_nl (s : str) : str :=
  match s with
  | [] => []
  | c :: t =>
      match rstrip_nl t with
      | [] => if N.eqb c nl then [] else [c]
      | t' => c :: t'
      end
  end.

(** [s.replace(old, new)] for one-character [old] and [new]. *)
Definition replace (old new : char) (s : str) : str :=
  map (fun c => if N.eqb c old then new else c) s.

(** [str(n)] for an [int]. *)
Definition str_of_int (z : Z) : str := lit (NilZero.string_of_int (Z.to_int z)).

(** ** Regular expressions

    The patterns of [main.py] are sequences of literals, single character
    classes, greedy repetitions of a class (captured or not) and [$]. *)

Module Re.

Inductive atom : Type :=
| Lit (s : str)              (* literal text *)
| Cls (p : char -> bool)     (* one character of a class *)
| Star (p : char -> bool)    (* a class repeated, greedy *)
| Group (p : char -> bool)   (* the same inside a capturing group *)
| Eos.                       (* end of string *)

Definition pattern := list atom.

(** Character classes.  [\s] on a [str] pattern is [Py_UNICODE_ISSPACE];
    [.] is anything but a newline. *)
Definition lower (c : char) : bool := (97 <=? c)%N && (c <=? 122)%N.
Definition lower_or_hyphen (c : char) : bool := lower c || N.eqb c hyphen.
Definition dot (c : char) : bool := negb (N.eqb c nl).
Definition not_dq (c : char) : bool := negb (N.eqb c dq).
Definition space (c : char) : bool :=
  ((9 <=? c) && (c <=? 13) || (28 <=? c) && (c <=? 32)
   || N.eqb c 133 || N.eqb c 160 || N.eqb c 5760
   || (8192 <=? c) && (c <=? 8202)
   || N.eqb c 8232 || N.eqb c 8233 || N.eqb c 8239 || N.eqb c 8287
   || N.eqb c 12288)%N.

Fixpoint strip_prefix (p s : str) : option str :=
  match p, s with
  | [], _ => Some s
  | x :: p', y :: s' => if N.eqb x y then strip_prefix p' s' else None
  | _ :: _, [] => None
  end.

(** [$] without [re.MULTILINE]: the end of the string, or just before a
    newline that ends it. *)
Definition at_eos (s : str) : bool :=
  match s with
  | [] => true
  | [c] => N.eqb c nl
  | _ => false
  end.

(** Greedy repetition: the longest run first, then one character less at
    a time until the rest of the pattern [k] matches.  [acc] is the text
    taken so far. *)
Fixpoint star_try {R : Type} (p : char -> bool)
         (k : str -> str -> option R) (acc s : str) : option R :=
  match s with
  | c :: t =>
      if p c then
        match star_try p k (acc ++ [c]) t with
        | Some r => Some r
        | None => k acc s
        end
      else k acc s
  | [] => k acc s
  end.

(** [pat.match(s)]: the captured groups when [pat] matches at the start of
    [s], [None] otherwise. *)
Fixpoint re_match (pat : pattern) (s : str) : option (list str) :=
  match pat with
  | [] => Some []
  | Lit l :: rest =>
      match strip_prefix l s with
      | Some s' => re_match rest s'
      | None => None
      end
  | Cls p :: rest =>
      match s with
      | c :: t => if p c then re_match rest t else None
      | [] => None
      end
  | Star p :: rest => star_try p (fun _ s' => re_match rest s') [] s
  | Group p :: rest =>
      star_try p (fun g s' => option_map (cons g) (re_match rest s')) [] s
  | Eos :: rest => if at_eos s then re_match rest s else None
  end.

(** Truth value of a match object. *)
Definition matches (pat : pattern) (s : str) : bool :=
  match re_match pat s with Some _ => true | None => false end.

End Re.

Import Re.

(** [property] (main.py, line 8): one character of [a-z], a run of
    [a-z-], the text [ = ] with its two spaces, and the rest of the line as
    group 1. *)
Definition property : pattern :=
  [Cls lower; Star lower_or_hyphen; Lit (lit " = "); Group dot].

(** [whitespace] (line 9): a run of [\s] up to [$]. *)
Definition whitespace : pattern := [Star space; Eos].

(** [name_property] (line 10): [name = ] and a double quote, a run of [.]
    as group 1, a double quote, [$]. *)
Definition name_property : pattern :=
  [Lit (lit "name = " ++ [dq]); Group dot; Lit [dq]; Eos].

(** [sdist_property] (line 11): [sdist = { url = ] and a double quote, a
    run of characters other than the double quote as group 1, the text from
    the closing quote of the url to [sha256:], a second such run as group 2,
    a double quote, a comma and a space, a run of [.], a closing brace.
    The braces stand for themselves: neither opens a repetition count. *)
Definition sdist_property : pattern :=
  [Lit (lit "sdist = { url = " ++ [dq]); Group not_dq;
   Lit ([dq] ++ lit ", hash = " ++ [dq] ++ lit "sha256:"); Group not_dq;
   Lit ([dq] ++ lit ", "); Star dot; Lit (lit "}")].

Definition package_header : str := lit "[[package]]".

(** ** The world: standard streams and the reader object *)

Inductive exn : Type :=
| EOFError (msg : str)
| ValueError (msg : str)
| AssertionError.

(** [Diverge] is the model's out-of-fuel answer of a [while] loop; the
    loops below are shown never to give it. *)
Inductive result (A : Type) : Type :=
| Ret (a : A)
| Raise (e : exn)
| Diverge.
Arguments Ret {A} a.
Arguments Raise {A} e.
Arguments Diverge {A}.

(** The attributes of the [StdinReader] instance.  [self_repr] is the text
    of [repr(self)] (by default [<module.StdinReader object at 0x...>]),
    fixed for the life of the object. *)
Record StdinReader : Type := mkReader {
  buffer : option str;
  current_line : Z;
  self_repr : str
}.

(** [sys_stdin] is the decoded text that [sys.stdin] has not handed out
    yet, line ends already translated to the newline character. *)
Record World : Type := mkWorld {
  sys_stdin : str;     (* the text not yet read *)
  sys_stdout : str;    (* the text written so far *)
  reader : StdinReader
}.

Definition M (A : Type) : Type := World -> result A * World.

Definition ret {A} (a : A) : M A := fun w => (Ret a, w).
Definition raise {A} (e : exn) : M A := fun w => (Raise e, w).
Definition diverge {A} : M A := fun w => (Diverge, w).
Definition bind {A B} (m : M A) (f : A -> M B) : M B :=
  fun w =>
    match m w with
    | (Ret a, w') => f a w'
    | (Raise e, w') => (Raise e, w')
    | (Diverge, w') => (Diverge, w')
    end.

Notation "x <- m ;; k" := (bind m (fun x => k))
  (at level 61, m at next level, right associativity).
Notation "m ;;; k" := (bind m (fun _ => k))
  (at level 61, right associativity).

(** [sys.stdin.readline()]: the text up to and including the next newline,
    the rest of the stream at its end, the empty string once nothing is
    left. *)
Fixpoint readline (s : str) : str * str :=
  match s with
  | [] => ([], [])
  | c :: t =>
      if N.eqb c nl then ([c], t)
      else let '(l, r) := readline t in (c :: l, r)
  end.

Definition stdin_readline : M str :=
  fun w =>
    let '(l, r) := readline (sys_stdin w) in
    (Ret l, mkWorld r (sys_stdout w) (reader w)).

(** [print(s)] *)
Definition print (s : str) : M unit :=
  fun w => (Ret tt, mkWorld (sys_stdin w) (sys_stdout w ++ s ++ [nl]) (reader w)).

Definition get_reader : M StdinReader := fun w => (Ret (reader w), w).
Definition put_reader (r : StdinReader) : M unit :=
  fun w => (Ret tt, mkWorld (sys_stdin w) (sys_stdout w) r).

(** *** class StdinReader *)

Definition update_buffer : M unit :=
  buf <- stdin_readline ;;
  self <- get_reader ;;
  if str_eqb buf [] then
    put_reader (mkReader None (current_line self) (self_repr self))
  else
    put_reader (mkReader (Some (rstrip_nl buf)) (current_line self + 1)
                         (self_repr self)).

(** [__init__], entered with the fresh object of a world made by [boot]. *)
Definition StdinReader_init : M unit :=
  self <- get_reader ;;
  put_reader (mkReader (buffer self) 0 (self_repr self)) ;;;
  update_buffer.

Definition has_next : M bool :=
  self <- get_reader ;;
  ret (match buffer self with Some _ => true | None => false end).

Definition next : M str :=
  b <- has_next ;;
  if negb b then raise (EOFError (lit "End of input reached"))
  else
    self <- get_reader ;;
    let result := buffer self in
    update_buffer ;;;
    match result with
    | Some line => ret line
    | None => raise AssertionError (* [assert result is not None] *)
    end.

Definition peek : M str :=
  b <- has_next ;;
  if negb b then raise (EOFError (lit "Cannot peek past EOF."))
  else
    self <- get_reader ;;
    match buffer self with
    | Some result => ret result
    | None => raise AssertionError (* [assert self.buffer is not None] *)
    end.

Definition line : M Z :=
  self <- get_reader ;;
  ret (current_line self).

(** What an f-string shows for [reader.line] written without the call: the
    bound method itself. *)
Definition line_method_repr : M str :=
  self <- get_reader ;;
  ret (lit "<bound method StdinReader.line of " ++ self_repr self ++ lit ">").

(** ** The manifest walker *)

(** Fuel for a [while] loop entered in world [w]: every pass but the last
    consumes a line, and the buffered line plus the lines still in the
    stream are fewer than this. *)
Definition lines_bound (w : World) : nat := 2 + length (sys_stdin w).

(** [match.group(i)], for [i >= 1]. *)
Definition group (i : nat) (groups : list str) : str := nth (i - 1) groups [].

Fixpoint skip_initial_fields_loop (fuel : nat) : M unit :=
  match fuel with
  | O => diverge
  | S fuel' =>
      more <- has_next ;;
      if negb more then ret tt
      else
        l1 <- peek ;;
        initial <- (if matches whitespace l1 then ret true
                    else (l2 <- peek ;; ret (matches property l2))) ;;
        if initial then (next ;;; skip_initial_fields_loop fuel')
        else ret tt
  end.

Definition skip_initial_fields : M unit :=
  fun w => skip_initial_fields_loop (lines_bound w) w.

Fixpoint parse_name_loop (fuel : nat) : M str :=
  match fuel with
  | O => diverge
  | S fuel' =>
      more <- has_next ;;
      if negb more then
        raise (ValueError (lit "Unexpected while parsing name."))
      else
        l <- next ;;
        if negb (matches property l) then
          (m <- line_method_repr ;;
           raise (ValueError (lit "Expected property, found '" ++ l
                              ++ lit "' at line " ++ m ++ lit ".")))
        else
          match re_match name_property l with
          | None => parse_name_loop fuel'
          | Some groups => ret (replace hyphen underscore (group 1 groups))
          end
  end.

Definition parse_name : M str :=
  fun w => parse_name_loop (lines_bound w) w.

Fixpoint parse_sdist_loop (fuel : nat) : M (option (str * str)) :=
  match fuel with
  | O => diverge
  | S fuel' =>
      more <- has_next ;;
      if negb more then
        raise (ValueError (lit "Unexpected EOF while parsing sdist."))
      else
        p <- peek ;;
        if str_eqb p package_header then ret None
        else
          l <- next ;;
          match re_match sdist_property l with
          | None => parse_sdist_loop fuel'
          | Some groups => ret (Some (group 1 groups, group 2 groups))
          end
  end.

Definition parse_sdist : M (option (str * str)) :=
  fun w => parse_sdist_loop (lines_bound w) w.

(** The closing loop of [parse_dependency_details]. *)
Fixpoint skip_rest_loop (fuel : nat) : M unit :=
  match fuel with
  | O => diverge
  | S fuel' =>
      more <- has_next ;;
      go <- (if more then (p <- peek ;; ret (negb (str_eqb p package_header)))
             else ret false) ;;
      if go then (next ;;; skip_rest_loop fuel') else ret tt
  end.

Definition skip_rest : M unit :=
  fun w => skip_rest_loop (lines_bound w) w.

Definition parse_dependency_details : M unit :=
  name <- parse_name ;;
  sdist <- parse_sdist ;;
  match sdist with
  | None => ret tt
  | Some (url, hash) =>
      print (lit "  resource " ++ [dq] ++ name ++ [dq] ++ lit " do" ++ [nl]
             ++ lit "    url " ++ [dq] ++ url ++ [dq] ++ [nl]
             ++ lit "    sha256 " ++ [dq] ++ hash ++ [dq] ++ [nl]
             ++ lit "  end" ++ [nl]) ;;;
      skip_rest
  end.

Definition parse_dependency : M unit :=
  header <- next ;;
  if negb (str_eqb header package_header) then
    (n <- line ;;
     raise (ValueError (lit "Expected package header at line " ++ str_of_int n
                        ++ lit ", found '" ++ header ++ lit "'.")))
  else parse_dependency_details.

Fixpoint read_lockfile_loop (fuel : nat) : M unit :=
  match fuel with
  | O => diverge
  | S fuel' =>
      more <- has_next ;;
      if more then (parse_dependency ;;; read_lockfile_loop fuel')
      else ret tt
  end.

Definition read_lockfile : M unit :=
  skip_initial_fields ;;;
  (fun w => read_lockfile_loop (lines_bound w) w).

(** The world in which [StdinReader()] starts: nothing read, nothing
    written, the attributes of the new object not yet set. *)
Definition boot (repr stdin : str) : World :=
  mkWorld stdin [] (mkReader None 0 repr).

(** [main], for a reader object whose [repr] is [repr]: the outcome and the
    final world.  An exception that reaches [main] ends the process with a
    traceback and a non-zero status. *)
Definition main (repr stdin : str) : result unit * World :=
  (StdinReader_init ;;; read_lockfile) (boot repr stdin).


(** ** Lines of a text *)

(** The lines of a text without their terminators: what the successive
    [readline] calls return, each stripped of its newline. *)
Fixpoint lines (s : str) : list str :=
  match s with
  | [] => []
  | c :: t =>
      if N.eqb c nl then [] :: lines t
      else match lines t with
           | [] => [[c]]
           | l :: ls => (c :: l) :: ls
           end
  end.

(** A text from its lines, each one terminated. *)
Definition unlines (ls : list str) : str :=
  concat (map (fun l => l ++ [nl]) ls).

(** The lines the walker has not consumed: the buffered one and those still
    in the stream. *)
Definition pending (w : World) : list str :=
  match buffer (reader w) with
  | None => []
  | Some b => b :: lines (sys_stdin w)
  end.

(** The world after [update_buffer], and after [k] calls of [next]. *)
Definition refill (w : World) : World := snd (update_buffer w).

Fixpoint consume (k : nat) (w : World) : World :=
  match k with
  | O => w
  | S k' => consume k' (refill w)
  end.

(** ** Manifest lines and output blocks, as the specification words them *)

(** The line [name = ] followed by the quoted value [v]. *)
Definition name_line (v : str) : str := lit "name = " ++ [dq] ++ v ++ [dq].

(** The start of an sdist line up to the closing quote of its hash field. *)
Definition sdist_head (url hex : str) : str :=
  lit "sdist = { url = " ++ [dq] ++ url ++ [dq]
  ++ lit ", hash = " ++ [dq] ++ lit "sha256:" ++ hex ++ [dq].

(** An sdist line of the sha256-hash form: after the hash field come a
    comma and a space, further fields, the closing brace and whatever
    trails it. *)
Definition sdist_line (url hex fields trail : str) : str :=
  sdist_head url hex ++ lit ", " ++ fields ++ lit "}" ++ trail.

(** The resource block written for one package: the four template lines
    and the blank line that follows them. *)
Definition resource_block (name url hex : str) : str :=
  (lit "  resource " ++ [dq] ++ name ++ [dq] ++ lit " do" ++ [nl])
  ++ (lit "    url " ++ [dq] ++ url ++ [dq] ++ [nl])
  ++ (lit "    sha256 " ++ [dq] ++ hex ++ [dq] ++ [nl])
  ++ (lit "  end" ++ [nl])
  ++ [nl].

(** A line that [skip_initial_fields] skips. *)
Definition initial_line (l : str) : bool :=
  matches whitespace l || matches property l.

(** A line that the name scan skips: a property other than the name. *)
Definition other_property (l : str) : bool :=
  matches property l && negb (matches name_property l).

(** A line that the sdist scan skips. *)
Definition no_sdist (l : str) : bool :=
  negb (str_eqb l package_header) && negb (matches sdist_property l).

Definition not_header (l : str) : bool := negb (str_eqb l package_header).

Fixpoint take_while {A} (f : A -> bool) (l : list A) : list A :=
  match l with
  | x :: l' => if f x then x :: take_while f l' else []
  | [] => []
  end.

Fixpoint drop_while {A} (f : A -> bool) (l : list A) : list A :=
  match l with
  | x :: l' => if f x then drop_while f l' else l
  | [] => []
  end.

(** Where a scan may stop: at the end of the input or in front of a
    package header. *)
Definition at_boundary (ls : list str) : Prop :=
  ls = [] \/ exists more, ls = package_header :: more.

(** A package record with a name and an sdist of the sha256-hash form, by
    its parts. *)
Record package : Type := mkPackage {
  pkg_before : list str;    (* the lines between the header and the name *)
  pkg_name : str;           (* the quoted value of the name *)
  pkg_between : list str;   (* the lines between the name and the sdist *)
  pkg_url : str;
  pkg_hex : str;
  pkg_fields : str;         (* what follows the hash field inside the table *)
  pkg_trail : str;          (* what follows the closing brace *)
  pkg_after : list str      (* the lines after the sdist *)
}.

Definition package_lines (p : package) : list str :=
  package_header
  :: pkg_before p
  ++ name_line (pkg_name p)
  :: pkg_between p
  ++ sdist_line (pkg_url p) (pkg_hex p) (pkg_fields p) (pkg_trail p)
  :: pkg_after p.

(** The record is well formed for the walker: properties other than the
    name come before the name, neither a header nor an earlier sdist of
    the hash form lies between name and sdist, url and hash are free of
    double quotes, and no header hides in the lines after the sdist. *)
Definition well_formed (p : package) : bool :=
  forallb other_property (pkg_before p)
  && forallb no_sdist (pkg_between p)
  && forallb not_dq (pkg_url p)
  && forallb not_dq (pkg_hex p)
  && forallb not_header (pkg_after p).

(** The block the specification asks for a package. *)
Definition package_block (p : package) : str :=
  resource_block (replace hyphen underscore (pkg_name p))
                 (pkg_url p) (pkg_hex p).

(** The reader's operations, for arbitrary sequences of calls. *)
Inductive op : Type := OpHasNext | OpPeek | OpNext | OpLine.

(** One call: the world after it and whether it was a completed [next]. *)
Definition run_op (o : op) (w : World) : World * nat :=
  match o with
  | OpHasNext => (snd (has_next w), 0)
  | OpPeek => (snd (peek w), 0)
  | OpLine => (snd (line w), 0)
  | OpNext =>
      match next w with
      | (Ret _, w') => (w', 1)
      | (_, w') => (w', 0)
      end
  end.

(** A sequence of calls: the final world and the number of completed
    [next] calls. *)
Fixpoint run_ops (os : list op) (w : World) : World * nat :=
  match os with
  | [] => (w, 0)
  | o :: os' =>
      let '(w1, n1) := run_op o w in
      let '(w2, n2) := run_ops os' w1 in
      (w2, n1 + n2)
  end.

(** The world in which [read_lockfile] is entered: [StdinReader()] has run. *)
Definition start (repr stdin : str) : World :=
  snd (StdinReader_init (boot repr stdin)).

(** What [has_next] answers in a world. *)
Definition has_line (w : World) : bool :=
  match fst (has_next w) with Ret b => b | _ => false end.

(** The example of the specification: one package [foo-bar]. *)
Definition example_package : package :=
  mkPackage [] (lit "foo-bar") [] (lit "https://x/y.tar.gz") (lit "abc123")
            (lit "size = 10 ") [] [].

Definition example_manifest : str := unlines (package_lines example_package).

(** Two malformed manifests: a first line that is no package header, and
    a line that is no property between a header and its name. *)
Definition manifest_without_header : str :=
  unlines [lit "garbage"; lit "more"].

Definition manifest_with_stray_line : str :=
  unlines [package_header; lit "oops"; name_line (lit "a")].

(** The counter is the number of completed [next] calls, plus one while a
    line sits in the buffer. *)
Definition counts (w : World) (n : nat) : Prop :=
  current_line (reader w) = (Z.of_nat n + if has_line w then 1 else 0)%Z.

(** A manifest whose first record has no sdist line and whose second is
    the example package; one whose only record has no sdist line; one whose
    record has its sdist line in front of the name; one with a blank line
    in front of the name; one whose sdist table ends after the hash. *)
Definition manifest_with_bare_record : str :=
  unlines ([package_header; lit "version = 1"; name_line (lit "bare");
            lit "source = { registry = 1 }"; []]
           ++ package_lines example_package).

Definition manifest_truncated : str :=
  unlines [package_header; name_line (lit "bare"); lit "version = 1"].

Definition manifest_sdist_first : str :=
  unlines [package_header;
           sdist_line (lit "u") (lit "h") (lit "size = 1 ") [];
           name_line (lit "late"); lit "version = 1"; package_header].

Definition manifest_blank_before_name : str :=
  unlines [package_header; lit "  "; name_line (lit "a")].

Definition manifest_short_sdist : str :=
  unlines [sdist_head (lit "u") (lit "h") ++ lit " }"; package_header].

(** A manifest whose record goes on after the sdist line, up to a second
    header. *)
Definition manifest_with_tail : str :=
  unlines [package_header; name_line (lit "a");
           sdist_line (lit "u") (lit "h") (lit "size = 1 ") [];
           lit "wheels = ["; lit "]"; []; package_header].

(** An outcome that is a value or an exception, in a world with no more
    pending lines than [w] had. *)
Definition settles {A} (r : result A * World) (w : World) : Prop :=
  fst r <> Diverge /\ length (pending (snd r)) <= length (pending w).

(** The world after [k] calls of [next]. *)
Definition after_next (k : nat) (w : World) : World :=
  fst (run_ops (repeat OpNext k) w).

(** An outcome that is a normal return or a [ValueError]. *)
Definition value_or_value_error {A} (r : result A) : Prop :=
  match r with
  | Ret _ => True
  | Raise (ValueError _) => True
  | _ => False
  end.

(** A name, a url and a hash as [parse_dependency_details] hands them to
    [print], and the block they make. *)
Definition clean_descriptor (d : str * str * str) : Prop :=
  let '(name, url, hex) := d in
  ~ In hyphen name /\ ~ In dq url /\ ~ In dq hex.

Definition descriptor_block (d : str * str * str) : str :=
  let '(name, url, hex) := d in resource_block name url hex.

(** The message of [parse_name] for a line that is no property, in a world
    whose reader object prints as [repr]. *)
Definition expected_property_message (l repr : str) : str :=
  lit "Expected property, found '" ++ l ++ lit "' at line "
  ++ (lit "<bound method StdinReader.line of " ++ repr ++ lit ">")
  ++ lit ".".

(** A manifest with two headers in a row, and one whose second record is
    malformed. *)
Definition manifest_two_headers : str :=
  unlines [package_header; package_header; name_line (lit "a")].

Definition manifest_good_then_bad : str :=
  unlines (package_lines example_package ++ [package_header; lit "oops"]).

(** The moves the walker makes on the world: a [next] on a pending line,
    or a [print]. *)
Inductive advances : World -> World -> Prop :=
| advances_here (w : World) : advances w w
| advances_next (w w' : World) (l : str) (ls : list str) :
    pending w = l :: ls -> advances (refill w) w' -> advances w w'
| advances_print (w w' : World) (s : str) :
    advances (snd (print s w)) w' -> advances w w'.

(** Lines read from the stream so far that are not the buffered one, plus
    the lines still to come: constant while the walker moves. *)
Definition lines_in_all (w : World) : Z :=
  (current_line (reader w) + Z.of_nat (length (pending w))
   - if has_line w then 1 else 0)%Z.

(** Two worlds the walker cannot tell apart: the same pending lines, the
    same line count and reader object, the same output so far. *)
Definition same_view (w1 w2 : World) : Prop :=
  pending w1 = pending w2
  /\ current_line (reader w1) = current_line (reader w2)
  /\ self_repr (reader w1) = self_repr (reader w2)
  /\ sys_stdout w1 = sys_stdout w2.

(** A record of a manifest: a package with an sdist of the hash form, or a
    bare record with a name and no such sdist, by its lines between the
    header and the name and after the name. *)
Inductive entry : Type :=
| WithSdist (p : package)
| Bare (before : list str) (v : str) (between : list str).

Definition entry_lines (e : entry) : list str :=
  match e with
  | WithSdist p => package_lines p
  | Bare before v between => package_header :: before ++ name_line v :: between
  end.

Definition entry_ok (e : entry) : bool :=
  match e with
  | WithSdist p => well_formed p
  | Bare before v between =>
      forallb other_property before && forallb no_sdist between
  end.

Definition entry_block (e : entry) : str :=
  match e with
  | WithSdist p => package_block p
  | Bare _ _ _ => []
  end.

(** A manifest with a bare record between two packages, and one that ends
    in a bare record. *)
Definition manifest_mixed : str :=
  unlines (package_lines example_package
           ++ [package_header; name_line (lit "root");
               lit "source = { virtual = 1 }"; []]
           ++ package_lines example_package).

Definition manifest_ending_bare : str :=
  unlines (package_lines example_package
           ++ [package_header; name_line (lit "root");
               lit "source = { virtual = 1 }"]).

(** The name the specification asks for in a block: the quoted value read
    character by character, a hyphen (code point 45) written as an
    underscore (code point 95) and every other character as it is. *)
Fixpoint hyphens_to_underscores (s : str) : str :=
  match s with
  | [] => []
  | c :: t => (if N.eqb c 45 then 95%N else c) :: hyphens_to_underscores t
  end.

(** The block the specification asks for a package, spelled without any
    function of the program. *)
Definition expected_block (p : package) : str :=
  resource_block (hyphens_to_underscores (pkg_name p)) (pkg_url p) (pkg_hex p).

(** A second package, with lines around its name and its sdist, and a
    manifest with a preamble and both packages. *)
Definition second_package : package :=
  mkPackage [lit "version = 2"] (lit "my-other-pkg")
            [lit "source = { registry = 1 }"]
            (lit "https://x/z-1.0.tar.gz") (lit "def456")
            (lit "size = 3 ") []
            [lit "wheels = ["; lit "]"; []].

Definition manifest_two_packages : str :=
  unlines ([lit "version = 1"; []]
           ++ package_lines example_package
           ++ package_lines second_package).

Arguments lit : simpl never.

(** ** Facts about strings and lines *)

Lemma str_eqb_eq (a b : str) : str_eqb a b = true <-> a = b.
Proof.
  revert b; induction a as [|x a IH]; intros [|y b]; simpl;
    try (split; congruence).
  rewrite andb_true_iff, N.eqb_eq, IH. split.
  - intros [-> ->]; reflexivity.
  - intros H; injection H; auto.
Qed.

Lemma str_eqb_refl (a : str) : str_eqb a a = true.
Proof. apply str_eqb_eq; reflexivity. Qed.

Lemma str_eqb_neq (a b : str) : a <> b -> str_eqb a b = false.
Proof.
  intros H. destruct (str_eqb a b) eqn:E; [|reflexivity].
  apply str_eqb_eq in E. contradiction.
Qed.

Lemma readline_nil (s : str) : fst (readline s) = [] -> s = [].
Proof.
  destruct s as [|c t]; [reflexivity|]. simpl.
  destruct (N.eqb c nl); [discriminate|].
  destruct (readline t); discriminate.
Qed.

Lemma readline_lines (s : str) :
  s <> [] ->
  lines s = rstrip_nl (fst (readline s)) :: lines (snd (readline s)).
Proof.
  induction s as [|c t IH]; [congruence|]. intros _. simpl.
  destruct (N.eqb c nl) eqn:E.
  - simpl. rewrite E. reflexivity.
  - destruct t as [|c' t'].
    + simpl. rewrite E. reflexivity.
    + rewrite IH by discriminate.
      destruct (readline (c' :: t')) as [l r] eqn:R. simpl.
      destruct (rstrip_nl l); [rewrite E|]; reflexivity.
Qed.

Lemma readline_length (s : str) : length (snd (readline s)) <= length s.
Proof.
  induction s as [|c t IH]; simpl; [lia|].
  destruct (N.eqb c nl); simpl; [lia|].
  destruct (readline t); simpl in *; lia.
Qed.

Lemma lines_length (s : str) : length (lines s) <= length s.
Proof.
  induction s as [|c t IH]; simpl; [lia|].
  destruct (N.eqb c nl); simpl; [lia|].
  destruct (lines t); simpl in *; lia.
Qed.

Lemma lines_no_nl (s : str) : Forall (fun l => ~ In nl l) (lines s).
Proof.
  induction s as [|c t IH]; simpl; [constructor|].
  destruct (N.eqb c nl) eqn:E.
  - constructor; auto.
  - apply N.eqb_neq in E.
    destruct (lines t) as [|l ls].
    + constructor; [|constructor]. intros [H|[]]. congruence.
    + inversion IH; subst. constructor; [|assumption].
      intros [H|H]; [congruence|contradiction].
Qed.

Lemma lines_unlines (ls : list str) :
  Forall (fun l => ~ In nl l) ls -> lines (unlines ls) = ls.
Proof.
  induction 1 as [|l ls Hl _ IH]; [reflexivity|].
  unfold unlines in *. simpl. rewrite <- app_assoc. simpl.
  induction l as [|c l IHl]; simpl.
  - rewrite IH. reflexivity.
  - destruct (N.eqb c nl) eqn:E.
    + apply N.eqb_eq in E. exfalso. apply Hl. left. auto.
    + rewrite IHl by (intros H; apply Hl; right; exact H). reflexivity.
Qed.

(** ** Facts about the monad and the reader *)

Lemma bind_ret {A B} (m : M A) (f : A -> M B) (w w' : World) (a : A) :
  m w = (Ret a, w') -> bind m f w = f a w'.
Proof. unfold bind; intros ->; reflexivity. Qed.

Lemma bind_raise {A B} (m : M A) (f : A -> M B) (w w' : World) (e : exn) :
  m w = (Raise e, w') -> bind m f w = (Raise e, w').
Proof. unfold bind; intros ->; reflexivity. Qed.

Lemma update_buffer_refill (w : World) : update_buffer w = (Ret tt, refill w).
Proof.
  unfold refill, update_buffer, bind, stdin_readline, get_reader, put_reader.
  destruct (readline (sys_stdin w)) as [l r]. simpl.
  destruct (str_eqb l []); reflexivity.
Qed.

Lemma refill_stdout (w : World) : sys_stdout (refill w) = sys_stdout w.
Proof.
  unfold refill, update_buffer, bind, stdin_readline, get_reader, put_reader.
  destruct (readline (sys_stdin w)) as [l r]. simpl.
  destruct (str_eqb l []); reflexivity.
Qed.

Lemma refill_repr (w : World) :
  self_repr (reader (refill w)) = self_repr (reader w).
Proof.
  unfold refill, update_buffer, bind, stdin_readline, get_reader, put_reader.
  destruct (readline (sys_stdin w)) as [l r]. simpl.
  destruct (str_eqb l []); reflexivity.
Qed.

Lemma refill_pending (w : World) : pending (refill w) = lines (sys_stdin w).
Proof.
  unfold refill, update_buffer, bind, stdin_readline, get_reader, put_reader,
    pending.
  destruct (sys_stdin w) as [|c t] eqn:Hs; [reflexivity|].
  rewrite (readline_lines (c :: t)) by (intro; discriminate).
  destruct (readline (c :: t)) as [l r] eqn:R. simpl.
  destruct (str_eqb l []) eqn:E; simpl; [|reflexivity].
  apply str_eqb_eq in E. subst l.
  assert (H : c :: t = []) by (apply readline_nil; rewrite R; reflexivity).
  discriminate.
Qed.

Lemma refill_line (w : World) :
  current_line (reader (refill w)) =
  (current_line (reader w) +
   match lines (sys_stdin w) with [] => 0 | _ :: _ => 1 end)%Z.
Proof.
  rewrite <- refill_pending.
  unfold refill, update_buffer, bind, stdin_readline, get_reader, put_reader,
    pending.
  destruct (readline (sys_stdin w)) as [l r]. simpl.
  destruct (str_eqb l []); simpl; lia.
Qed.

Lemma pending_tail (w : World) (l : str) (ls : list str) :
  pending w = l :: ls -> pending (refill w) = ls.
Proof.
  rewrite refill_pending. unfold pending.
  destruct (buffer (reader w)); [|discriminate]. congruence.
Qed.

Lemma pending_bound (w : World) : length (pending w) < lines_bound w.
Proof.
  unfold pending, lines_bound.
  pose proof (lines_length (sys_stdin w)).
  destruct (buffer (reader w)); simpl; lia.
Qed.

Lemma has_next_nil (w : World) : pending w = [] -> has_next w = (Ret false, w).
Proof.
  unfold pending, has_next, bind, get_reader, ret.
  destruct (buffer (reader w)); [discriminate | reflexivity].
Qed.

Lemma has_next_cons (w : World) (l : str) (ls : list str) :
  pending w = l :: ls -> has_next w = (Ret true, w).
Proof.
  unfold pending, has_next, bind, get_reader, ret.
  destruct (buffer (reader w)); [reflexivity | discriminate].
Qed.

Lemma peek_cons (w : World) (l : str) (ls : list str) :
  pending w = l :: ls -> peek w = (Ret l, w).
Proof.
  unfold pending, peek, has_next, bind, get_reader, ret.
  destruct (buffer (reader w)) eqn:B; [simpl | discriminate].
  rewrite B. congruence.
Qed.

Lemma peek_nil (w : World) :
  pending w = [] -> peek w = (Raise (EOFError (lit "Cannot peek past EOF.")), w).
Proof.
  unfold pending, peek, has_next, bind, get_reader, ret.
  destruct (buffer (reader w)); [discriminate | reflexivity].
Qed.

Lemma next_cons (w : World) (l : str) (ls : list str) :
  pending w = l :: ls -> next w = (Ret l, refill w).
Proof.
  unfold pending, next, has_next, bind, get_reader, ret.
  destruct (buffer (reader w)) eqn:B; [simpl | discriminate].
  rewrite B, update_buffer_refill. congruence.
Qed.

Lemma next_nil (w : World) :
  pending w = [] -> next w = (Raise (EOFError (lit "End of input reached")), w).
Proof.
  unfold pending, next, has_next, bind, get_reader, ret.
  destruct (buffer (reader w)); [discriminate | reflexivity].
Qed.

Lemma consume_pending (pre rest : list str) (w : World) :
  pending w = pre ++ rest -> pending (consume (length pre) w) = rest.
Proof.
  revert w; induction pre as [|l pre IH]; intros w H; simpl; [exact H|].
  apply IH. exact (pending_tail _ _ _ H).
Qed.

Lemma consume_stdout (k : nat) (w : World) :
  sys_stdout (consume k w) = sys_stdout w.
Proof.
  revert w; induction k as [|k IH]; intros w; simpl; [reflexivity|].
  rewrite IH. apply refill_stdout.
Qed.

Lemma consume_repr (k : nat) (w : World) :
  self_repr (reader (consume k w)) = self_repr (reader w).
Proof.
  revert w; induction k as [|k IH]; intros w; simpl; [reflexivity|].
  rewrite IH. apply refill_repr.
Qed.

Lemma consume_S (k : nat) (w : World) :
  consume (S k) w = refill (consume k w).
Proof.
  revert w; induction k as [|k IH]; intros w; [reflexivity|].
  simpl in *. rewrite IH. reflexivity.
Qed.


(** ** Facts about the matcher *)

Section StarTry.
Context {R : Type} (p : char -> bool) (k : str -> str -> option R).

(** A run of class characters that must be taken whole: the text after it
    does not continue the run, and the rest of the pattern fails at every
    earlier stop. *)
Lemma star_try_forced (v t acc : str) :
  Forall (fun c => p c = true) v ->
  match t with [] => True | c :: _ => p c = false end ->
  (forall v1 c v2, v = v1 ++ c :: v2 -> k (acc ++ v1) (c :: v2 ++ t) = None) ->
  star_try p k acc (v ++ t) = k (acc ++ v) t.
Proof.
  intros Hv Ht. revert acc.
  induction Hv as [|c v Hc Hv IH]; intros acc Hk; simpl.
  - rewrite app_nil_r. destruct t as [|c t]; simpl; [reflexivity|].
    rewrite Ht. reflexivity.
  - rewrite Hc, IH.
    + rewrite <- app_assoc. simpl.
      destruct (k (acc ++ c :: v) t); [reflexivity|].
      specialize (Hk [] c v eq_refl). rewrite app_nil_r in Hk. exact Hk.
    + intros v1 c' v2 ->. rewrite <- app_assoc. simpl.
      apply (Hk (c :: v1) c' v2). reflexivity.
Qed.

(** Greedy success: when the rest of the pattern matches after the whole
    run and one more step of the run fails, that is the match. *)
Lemma star_try_prefix (v t acc : str) (r : R) :
  Forall (fun c => p c = true) v ->
  star_try p k (acc ++ v) t = Some r ->
  star_try p k acc (v ++ t) = Some r.
Proof.
  intros Hv. revert acc.
  induction Hv as [|c v Hc Hv IH]; intros acc H; simpl.
  - rewrite app_nil_r in H. exact H.
  - rewrite Hc, IH; [reflexivity|].
    rewrite <- app_assoc. exact H.
Qed.

(** Every match of a repetition splits the text into a run of the class
    and a rest on which the remaining pattern matched. *)
Lemma star_try_inv (s acc : str) (r : R) :
  star_try p k acc s = Some r ->
  exists v t, s = v ++ t /\ Forall (fun c => p c = true) v
              /\ k (acc ++ v) t = Some r.
Proof.
  assert (stop : forall acc s, k acc s = Some r ->
            exists v t, s = v ++ t /\ Forall (fun c => p c = true) v
                        /\ k (acc ++ v) t = Some r).
  { intros a s0 H. exists [], s0. rewrite app_nil_r.
    repeat split; [constructor | exact H]. }
  revert acc; induction s as [|c s IH]; intros acc H; simpl in H.
  - apply stop, H.
  - destruct (p c) eqn:Hc; [|apply stop, H].
    destruct (star_try p k (acc ++ [c]) s) as [r'|] eqn:E; [|apply stop, H].
    injection H as ->. destruct (IH _ E) as (v & t & -> & Hv & Hk).
    exists (c :: v), t. rewrite <- app_assoc in Hk.
    repeat split; [constructor; assumption | exact Hk].
Qed.

(** A repetition followed by a pattern that cannot fail does not fail. *)
Lemma star_try_total (s acc : str) :
  (forall a s', k a s' <> None) -> star_try p k acc s <> None.
Proof.
  intros Hk. revert acc; induction s as [|c s IH]; intros acc; simpl.
  - apply Hk.
  - destruct (p c); [|apply Hk].
    destruct (star_try p k (acc ++ [c]) s) eqn:E; [discriminate|].
    exfalso. exact (IH _ E).
Qed.

(** A run after which the rest of the pattern matches gives a match
    (that one, or one with a longer run). *)
Lemma star_try_complete (v t acc : str) :
  Forall (fun c => p c = true) v ->
  k (acc ++ v) t <> None -> star_try p k acc (v ++ t) <> None.
Proof.
  intros Hv. revert acc.
  induction Hv as [|c v Hc Hv IH]; intros acc H; simpl.
  - rewrite app_nil_r in H. destruct t as [|c t]; simpl; [exact H|].
    destruct (p c); [|exact H].
    destruct (star_try p k (acc ++ [c]) t); [discriminate | exact H].
  - rewrite Hc.
    destruct (star_try p k (acc ++ [c]) (v ++ t)) eqn:E; [discriminate|].
    exfalso. revert E. apply IH. rewrite <- app_assoc. exact H.
Qed.

End StarTry.

Lemma strip_prefix_app (p s : str) : strip_prefix p (p ++ s) = Some s.
Proof.
  induction p as [|c p IH]; simpl; [reflexivity|].
  rewrite N.eqb_refl. exact IH.
Qed.

Lemma strip_prefix_inv (p s s' : str) :
  strip_prefix p s = Some s' -> s = p ++ s'.
Proof.
  revert s; induction p as [|c p IH]; intros s H; simpl in *.
  - congruence.
  - destruct s as [|y s]; [discriminate|].
    destruct (N.eqb c y) eqn:E; [|discriminate].
    apply N.eqb_eq in E. subst y. f_equal. auto.
Qed.

Lemma space_not_lower (c : char) : space c = true -> lower c = false.
Proof.
  intros H. unfold space in H. unfold lower.
  rewrite ?orb_true_iff, ?andb_true_iff, ?N.leb_le, ?N.eqb_eq in H.
  rewrite andb_false_iff, !N.leb_gt. lia.
Qed.

Lemma whitespace_matches (l : str) :
  matches whitespace l = true <-> forallb space l = true.
Proof.
  unfold matches, whitespace. simpl. split.
  - destruct (star_try _ _ _ _) as [r|] eqn:E; [intros _|discriminate].
    apply star_try_inv in E. destruct E as (v & t & -> & Hv & Hk).
    rewrite forallb_app. apply andb_true_iff. split.
    + apply forallb_forall. rewrite Forall_forall in Hv. exact Hv.
    + destruct t as [|c [|c' t]]; simpl in *; try discriminate; auto.
      destruct (N.eqb c nl) eqn:Ec; [|discriminate].
      apply N.eqb_eq in Ec. subst c. reflexivity.
  - intros H.
    assert (Hv : Forall (fun c => space c = true) l).
    { apply Forall_forall. apply forallb_forall. exact H. }
    rewrite <- (app_nil_r l).
    rewrite (star_try_prefix space _ l [] [] []); [reflexivity|exact Hv|].
    reflexivity.
Qed.

Lemma whitespace_not_property (l : str) :
  forallb space l = true -> matches property l = false.
Proof.
  unfold matches, property. destruct l as [|c l]; simpl; [reflexivity|].
  intros H. apply andb_true_iff in H. destruct H as [H _].
  rewrite (space_not_lower _ H). reflexivity.
Qed.

Lemma re_match_lit (p : str) (rest : pattern) (s : str) :
  re_match (Lit p :: rest) (p ++ s) = re_match rest s.
Proof. simpl. rewrite strip_prefix_app. reflexivity. Qed.

(** A captured run before a literal whose first character is outside the
    class ends exactly at that character. *)
Lemma group_then_lit (p : char -> bool) (q : char) (ql : str)
      (rest : pattern) (v t : str) :
  Forall (fun c => p c = true) v -> p q = false ->
  re_match (Group p :: Lit (q :: ql) :: rest) (v ++ q :: t) =
  option_map (cons v) (re_match (Lit (q :: ql) :: rest) (q :: t)).
Proof.
  intros Hv Hq. cbn [re_match].
  rewrite star_try_forced; [reflexivity | exact Hv | exact Hq |].
  intros v1 c v2 ->. simpl.
  assert (Hc : p c = true).
  { rewrite Forall_forall in Hv. apply Hv. apply in_or_app. right. left.
    reflexivity. }
  destruct (N.eqb q c) eqn:E; [|reflexivity].
  apply N.eqb_eq in E. congruence.
Qed.

Lemma star_then_lit (p : char -> bool) (q : char) (ql : str)
      (rest : pattern) (v t : str) :
  Forall (fun c => p c = true) v -> p q = false ->
  re_match (Star p :: Lit (q :: ql) :: rest) (v ++ q :: t) =
  re_match (Lit (q :: ql) :: rest) (q :: t).
Proof.
  intros Hv Hq. cbn [re_match].
  rewrite star_try_forced; [reflexivity | exact Hv | exact Hq |].
  intros v1 c v2 ->. simpl.
  assert (Hc : p c = true).
  { rewrite Forall_forall in Hv. apply Hv. apply in_or_app. right. left.
    reflexivity. }
  destruct (N.eqb q c) eqn:E; [|reflexivity].
  apply N.eqb_eq in E. congruence.
Qed.

Lemma no_nl_dot (v : str) : ~ In nl v -> Forall (fun c => dot c = true) v.
Proof.
  intros H. apply Forall_forall. intros c Hc. unfold dot.
  destruct (N.eqb c nl) eqn:E; [|reflexivity].
  apply N.eqb_eq in E. subst c. contradiction.
Qed.

Lemma no_dq_class (v : str) : ~ In dq v -> Forall (fun c => not_dq c = true) v.
Proof.
  intros H. apply Forall_forall. intros c Hc. unfold not_dq.
  destruct (N.eqb c dq) eqn:E; [|reflexivity].
  apply N.eqb_eq in E. subst c. contradiction.
Qed.

(** The generic property pattern accepts every [key = value] line. *)
Lemma property_matches_intro (c : char) (key value : str) :
  lower c = true -> Forall (fun x => lower_or_hyphen x = true) key ->
  matches property (c :: key ++ lit " = " ++ value) = true.
Proof.
  intros Hc Hk. unfold matches, property.
  change (lit " = ") with (32%N :: lit "= ").
  change (re_match (Cls lower :: ?r) (c :: ?t))
    with (if lower c then re_match r t else None).
  rewrite Hc.
  change ((32%N :: lit "= ") ++ value) with (32%N :: lit "= " ++ value).
  rewrite star_then_lit by (exact Hk || reflexivity).
  change (32%N :: lit "= " ++ value) with ((32%N :: lit "= ") ++ value).
  rewrite re_match_lit. cbn [re_match].
  destruct (star_try _ _ _ _) eqn:E; [reflexivity|].
  exfalso. revert E. apply star_try_total. intros a s'. discriminate.
Qed.

Lemma name_line_property (v : str) : matches property (name_line v) = true.
Proof.
  change (name_line v)
    with (110%N :: lit "ame" ++ lit " = " ++ (dq :: v ++ [dq])).
  apply property_matches_intro; [reflexivity|].
  repeat constructor.
Qed.

(** The name pattern captures the quoted value of a name line whole. *)
Lemma name_line_match (v : str) :
  ~ In nl v -> re_match name_property (name_line v) = Some [v].
Proof.
  intros Hv. unfold name_property, name_line.
  rewrite (app_assoc (lit "name = ") [dq]), re_match_lit.
  cbn [re_match].
  apply (star_try_prefix dot _ v [dq] []); [apply no_nl_dot, Hv|].
  reflexivity.
Qed.

Lemma sdist_head_property (url hex rest : str) :
  matches property (sdist_head url hex ++ rest) = true.
Proof.
  unfold sdist_head.
  match goal with |- matches property ?l = true =>
    change l with (115%N :: lit "dist" ++ lit " = " ++
      (lit "{ url = " ++ [dq] ++ url ++ [dq] ++ lit ", hash = " ++ [dq]
       ++ lit "sha256:" ++ hex ++ [dq]) ++ rest)
  end.
  apply property_matches_intro; [reflexivity|].
  repeat constructor.
Qed.

Lemma sdist_head_not_name (url hex rest : str) :
  matches name_property (sdist_head url hex ++ rest) = false.
Proof. reflexivity. Qed.

Lemma strip_prefix_none (p s : str) :
  (forall r, s <> p ++ r) -> strip_prefix p s = None.
Proof.
  intros H. destruct (strip_prefix p s) as [s'|] eqn:E; [|reflexivity].
  apply strip_prefix_inv in E. exfalso. exact (H _ E).
Qed.

(** On a line that starts like an sdist line with quote-free [url] and
    [hex], the sdist pattern stands or falls with what follows the hash
    field, and the groups can only be [url] and [hex]. *)
Lemma sdist_head_match (url hex tail : str) :
  ~ In dq url -> ~ In dq hex ->
  re_match sdist_property (sdist_head url hex ++ tail) =
  option_map (fun gs => url :: hex :: gs)
             (re_match [Lit (lit ", "); Star dot; Lit (lit "}")] tail).
Proof.
  intros Hu Hh. apply no_dq_class in Hu. apply no_dq_class in Hh.
  unfold sdist_property, sdist_head. repeat rewrite <- app_assoc.
  set (A := lit "sdist = { url = " ++ [dq]).
  set (B := lit ", hash = " ++ [dq] ++ lit "sha256:").
  set (rest := [Lit (lit ", "); Star dot; Lit (lit "}")]).
  match goal with |- re_match _ ?l = _ =>
    change l with (A ++ url ++ dq :: B ++ hex ++ dq :: tail)
  end.
  change ([dq] ++ B) with (dq :: B).
  change ([dq] ++ lit ", ") with (dq :: lit ", ").
  rewrite re_match_lit.
  rewrite group_then_lit by (exact Hu || reflexivity).
  change (dq :: B ++ hex ++ dq :: tail) with ((dq :: B) ++ hex ++ dq :: tail).
  rewrite re_match_lit.
  rewrite group_then_lit by (exact Hh || reflexivity).
  change (re_match (Lit (dq :: lit ", ") :: ?r) (dq :: tail))
    with (re_match (Lit (lit ", ") :: r) tail).
  fold rest. destruct (re_match rest tail); reflexivity.
Qed.

Lemma sdist_line_match (url hex fields trail : str) :
  ~ In dq url -> ~ In dq hex -> ~ In nl fields ->
  re_match sdist_property (sdist_line url hex fields trail) = Some [url; hex].
Proof.
  intros Hu Hh Hf. unfold sdist_line.
  rewrite sdist_head_match by assumption.
  rewrite re_match_lit. cbn [re_match].
  destruct (star_try _ _ _ _) as [r|] eqn:E.
  - apply star_try_inv in E. destruct E as (v & t & _ & _ & Hk).
    destruct (strip_prefix (lit "}") t); [|discriminate].
    injection Hk as <-. reflexivity.
  - exfalso. revert E. apply star_try_complete; [apply no_nl_dot, Hf|].
    rewrite strip_prefix_app. discriminate.
Qed.

(** The sdist pattern rejects a line whose hash field is not followed by a
    comma and a space. *)
Lemma sdist_head_no_match (url hex tail : str) :
  ~ In dq url -> ~ In dq hex -> (forall r, tail <> lit ", " ++ r) ->
  re_match sdist_property (sdist_head url hex ++ tail) = None.
Proof.
  intros Hu Hh Ht. rewrite sdist_head_match by assumption.
  cbn [re_match]. rewrite strip_prefix_none by exact Ht. reflexivity.
Qed.

Lemma header_not_initial : initial_line package_header = false.
Proof. reflexivity. Qed.

Lemma header_not_sdist (l : str) (gs : list str) :
  re_match sdist_property l = Some gs -> l <> package_header.
Proof. intros H ->. discriminate. Qed.

(** ** One pass of each loop *)

Ltac step_with H := rewrite (bind_ret _ _ _ _ _ H); cbn beta iota.

Lemma skip_initial_fields_loop_nil (fuel : nat) (w : World) :
  pending w = [] -> skip_initial_fields_loop (S fuel) w = (Ret tt, w).
Proof.
  intros H. cbn [skip_initial_fields_loop].
  step_with (has_next_nil _ H). reflexivity.
Qed.

Lemma skip_initial_fields_loop_stop (fuel : nat) (w : World) l ls :
  pending w = l :: ls -> initial_line l = false ->
  skip_initial_fields_loop (S fuel) w = (Ret tt, w).
Proof.
  intros H Hl. cbn [skip_initial_fields_loop].
  apply orb_false_iff in Hl. destruct Hl as [Hw Hp].
  step_with (has_next_cons _ _ _ H). cbn [negb].
  step_with (peek_cons _ _ _ H). rewrite Hw.
  unfold bind at 1. unfold bind at 1. rewrite (peek_cons _ _ _ H).
  unfold ret at 1. rewrite Hp. reflexivity.
Qed.

Lemma skip_initial_fields_loop_skip (fuel : nat) (w : World) l ls :
  pending w = l :: ls -> initial_line l = true ->
  skip_initial_fields_loop (S fuel) w =
  skip_initial_fields_loop fuel (refill w).
Proof.
  intros H Hl. cbn [skip_initial_fields_loop].
  step_with (has_next_cons _ _ _ H). cbn [negb].
  step_with (peek_cons _ _ _ H).
  unfold initial_line in Hl.
  destruct (matches whitespace l) eqn:Hw.
  - unfold bind at 1. unfold ret at 1.
    step_with (next_cons _ _ _ H). reflexivity.
  - simpl in Hl. unfold bind at 1. unfold bind at 1.
    rewrite (peek_cons _ _ _ H). unfold ret at 1. rewrite Hl.
    step_with (next_cons _ _ _ H). reflexivity.
Qed.

Lemma parse_name_loop_nil (fuel : nat) (w : World) :
  pending w = [] ->
  parse_name_loop (S fuel) w =
  (Raise (ValueError (lit "Unexpected while parsing name.")), w).
Proof.
  intros H. cbn [parse_name_loop].
  step_with (has_next_nil _ H). reflexivity.
Qed.

Lemma parse_name_loop_bad (fuel : nat) (w : World) l ls :
  pending w = l :: ls -> matches property l = false ->
  parse_name_loop (S fuel) w =
  (Raise (ValueError (lit "Expected property, found '" ++ l
                      ++ lit "' at line "
                      ++ (lit "<bound method StdinReader.line of "
                          ++ self_repr (reader w) ++ lit ">")
                      ++ lit ".")),
   refill w).
Proof.
  intros H Hl. cbn [parse_name_loop].
  step_with (has_next_cons _ _ _ H). cbn [negb].
  step_with (next_cons _ _ _ H). rewrite Hl. cbn [negb].
  rewrite <- (refill_repr w). reflexivity.
Qed.

Lemma parse_name_loop_skip (fuel : nat) (w : World) l ls :
  pending w = l :: ls -> other_property l = true ->
  parse_name_loop (S fuel) w = parse_name_loop fuel (refill w).
Proof.
  intros H Hl. cbn [parse_name_loop].
  apply andb_true_iff in Hl. destruct Hl as [Hp Hn].
  step_with (has_next_cons _ _ _ H). cbn [negb].
  step_with (next_cons _ _ _ H). rewrite Hp. cbn [negb].
  unfold matches in Hn.
  destruct (re_match name_property l); [discriminate | reflexivity].
Qed.

Lemma parse_name_loop_found (fuel : nat) (w : World) l ls groups :
  pending w = l :: ls -> matches property l = true ->
  re_match name_property l = Some groups ->
  parse_name_loop (S fuel) w =
  (Ret (replace hyphen underscore (group 1 groups)), refill w).
Proof.
  intros H Hp Hn. cbn [parse_name_loop].
  step_with (has_next_cons _ _ _ H). cbn [negb].
  step_with (next_cons _ _ _ H). rewrite Hp, Hn. reflexivity.
Qed.

Lemma parse_sdist_loop_nil (fuel : nat) (w : World) :
  pending w = [] ->
  parse_sdist_loop (S fuel) w =
  (Raise (ValueError (lit "Unexpected EOF while parsing sdist.")), w).
Proof.
  intros H. cbn [parse_sdist_loop].
  step_with (has_next_nil _ H). reflexivity.
Qed.

Lemma parse_sdist_loop_header (fuel : nat) (w : World) ls :
  pending w = package_header :: ls ->
  parse_sdist_loop (S fuel) w = (Ret None, w).
Proof.
  intros H. cbn [parse_sdist_loop].
  step_with (has_next_cons _ _ _ H). cbn [negb].
  step_with (peek_cons _ _ _ H). rewrite str_eqb_refl. reflexivity.
Qed.

Lemma parse_sdist_loop_skip (fuel : nat) (w : World) l ls :
  pending w = l :: ls -> no_sdist l = true ->
  parse_sdist_loop (S fuel) w = parse_sdist_loop fuel (refill w).
Proof.
  intros H Hl. cbn [parse_sdist_loop].
  apply andb_true_iff in Hl. destruct Hl as [Hh Hs].
  apply negb_true_iff in Hh.
  step_with (has_next_cons _ _ _ H). cbn [negb].
  step_with (peek_cons _ _ _ H). rewrite Hh.
  step_with (next_cons _ _ _ H).
  unfold matches in Hs.
  destruct (re_match sdist_property l); [discriminate | reflexivity].
Qed.

Lemma parse_sdist_loop_found (fuel : nat) (w : World) l ls groups :
  pending w = l :: ls -> re_match sdist_property l = Some groups ->
  parse_sdist_loop (S fuel) w =
  (Ret (Some (group 1 groups, group 2 groups)), refill w).
Proof.
  intros H Hs. cbn [parse_sdist_loop].
  step_with (has_next_cons _ _ _ H). cbn [negb].
  step_with (peek_cons _ _ _ H).
  rewrite (str_eqb_neq _ _ (header_not_sdist _ _ Hs)).
  step_with (next_cons _ _ _ H). rewrite Hs. reflexivity.
Qed.

Lemma skip_rest_loop_nil (fuel : nat) (w : World) :
  pending w = [] -> skip_rest_loop (S fuel) w = (Ret tt, w).
Proof.
  intros H. cbn [skip_rest_loop].
  step_with (has_next_nil _ H). reflexivity.
Qed.

Lemma skip_rest_loop_header (fuel : nat) (w : World) ls :
  pending w = package_header :: ls ->
  skip_rest_loop (S fuel) w = (Ret tt, w).
Proof.
  intros H. cbn [skip_rest_loop].
  step_with (has_next_cons _ _ _ H).
  unfold bind at 1. unfold bind at 1. rewrite (peek_cons _ _ _ H).
  unfold ret at 1. rewrite str_eqb_refl. reflexivity.
Qed.

Lemma skip_rest_loop_skip (fuel : nat) (w : World) l ls :
  pending w = l :: ls -> not_header l = true ->
  skip_rest_loop (S fuel) w = skip_rest_loop fuel (refill w).
Proof.
  intros H Hl. cbn [skip_rest_loop]. unfold not_header in Hl.
  step_with (has_next_cons _ _ _ H).
  unfold bind at 1. unfold bind at 1. rewrite (peek_cons _ _ _ H).
  unfold ret at 1. rewrite Hl.
  step_with (next_cons _ _ _ H). reflexivity.
Qed.

Lemma parse_dependency_header (w : World) ls :
  pending w = package_header :: ls ->
  parse_dependency w = parse_dependency_details (refill w).
Proof.
  intros H. unfold parse_dependency.
  step_with (next_cons _ _ _ H). rewrite str_eqb_refl. reflexivity.
Qed.

Lemma parse_dependency_bad (w : World) l ls :
  pending w = l :: ls -> l <> package_header ->
  parse_dependency w =
  (Raise (ValueError (lit "Expected package header at line "
                      ++ str_of_int (current_line (reader (refill w)))
                      ++ lit ", found '" ++ l ++ lit "'.")),
   refill w).
Proof.
  intros H Hl. unfold parse_dependency.
  step_with (next_cons _ _ _ H). rewrite (str_eqb_neq _ _ Hl).
  reflexivity.
Qed.

Lemma read_lockfile_loop_nil (fuel : nat) (w : World) :
  pending w = [] -> read_lockfile_loop (S fuel) w = (Ret tt, w).
Proof.
  intros H. cbn [read_lockfile_loop].
  step_with (has_next_nil _ H). reflexivity.
Qed.

Lemma read_lockfile_loop_cons (fuel : nat) (w : World) l ls :
  pending w = l :: ls ->
  read_lockfile_loop (S fuel) w =
  (parse_dependency ;;; read_lockfile_loop fuel) w.
Proof.
  intros H. cbn [read_lockfile_loop].
  step_with (has_next_cons _ _ _ H). reflexivity.
Qed.

(** ** Whole scans *)

Lemma skip_initial_fields_loop_skips (pre rest : list str) (fuel : nat) w :
  pending w = pre ++ rest -> forallb initial_line pre = true ->
  skip_initial_fields_loop (length pre + fuel) w =
  skip_initial_fields_loop fuel (consume (length pre) w).
Proof.
  revert w; induction pre as [|l pre IH]; intros w H Hp; [reflexivity|].
  simpl in Hp. apply andb_true_iff in Hp. destruct Hp as [Hl Hp].
  cbn [length Nat.add consume].
  rewrite (skip_initial_fields_loop_skip _ _ _ _ H Hl).
  apply IH; [exact (pending_tail _ _ _ H) | exact Hp].
Qed.

Lemma parse_name_loop_skips (pre rest : list str) (fuel : nat) w :
  pending w = pre ++ rest -> forallb other_property pre = true ->
  parse_name_loop (length pre + fuel) w =
  parse_name_loop fuel (consume (length pre) w).
Proof.
  revert w; induction pre as [|l pre IH]; intros w H Hp; [reflexivity|].
  simpl in Hp. apply andb_true_iff in Hp. destruct Hp as [Hl Hp].
  cbn [length Nat.add consume].
  rewrite (parse_name_loop_skip _ _ _ _ H Hl).
  apply IH; [exact (pending_tail _ _ _ H) | exact Hp].
Qed.

Lemma parse_sdist_loop_skips (pre rest : list str) (fuel : nat) w :
  pending w = pre ++ rest -> forallb no_sdist pre = true ->
  parse_sdist_loop (length pre + fuel) w =
  parse_sdist_loop fuel (consume (length pre) w).
Proof.
  revert w; induction pre as [|l pre IH]; intros w H Hp; [reflexivity|].
  simpl in Hp. apply andb_true_iff in Hp. destruct Hp as [Hl Hp].
  cbn [length Nat.add consume].
  rewrite (parse_sdist_loop_skip _ _ _ _ H Hl).
  apply IH; [exact (pending_tail _ _ _ H) | exact Hp].
Qed.

Lemma skip_rest_loop_skips (pre rest : list str) (fuel : nat) w :
  pending w = pre ++ rest -> forallb not_header pre = true ->
  skip_rest_loop (length pre + fuel) w =
  skip_rest_loop fuel (consume (length pre) w).
Proof.
  revert w; induction pre as [|l pre IH]; intros w H Hp; [reflexivity|].
  simpl in Hp. apply andb_true_iff in Hp. destruct Hp as [Hl Hp].
  cbn [length Nat.add consume].
  rewrite (skip_rest_loop_skip _ _ _ _ H Hl).
  apply IH; [exact (pending_tail _ _ _ H) | exact Hp].
Qed.

(** The fuel a function gives its loop covers any prefix of the pending
    lines and one more pass. *)
Lemma lines_bound_split (w : World) (pre rest : list str) :
  pending w = pre ++ rest ->
  exists fuel, lines_bound w = length pre + S fuel.
Proof.
  intros H. pose proof (pending_bound w) as B.
  rewrite H, length_app in B.
  exists (lines_bound w - length pre - 1). lia.
Qed.

Lemma skip_initial_fields_run (pre rest : list str) (w : World) :
  pending w = pre ++ rest -> forallb initial_line pre = true ->
  match rest with [] => True | l :: _ => initial_line l = false end ->
  skip_initial_fields w = (Ret tt, consume (length pre) w).
Proof.
  intros H Hp Hr. unfold skip_initial_fields.
  destruct (lines_bound_split _ _ _ H) as [fuel ->].
  rewrite (skip_initial_fields_loop_skips _ _ _ _ H Hp).
  pose proof (consume_pending _ _ _ H) as H'.
  destruct rest as [|l rest].
  - apply skip_initial_fields_loop_nil, H'.
  - exact (skip_initial_fields_loop_stop _ _ _ _ H' Hr).
Qed.

Lemma parse_name_found (pre rest : list str) (v : str) (w : World) :
  pending w = pre ++ name_line v :: rest ->
  forallb other_property pre = true -> ~ In nl v ->
  parse_name w =
  (Ret (replace hyphen underscore v), consume (S (length pre)) w).
Proof.
  intros H Hp Hv. unfold parse_name.
  destruct (lines_bound_split _ _ _ H) as [fuel ->].
  rewrite (parse_name_loop_skips _ _ _ _ H Hp).
  pose proof (consume_pending _ _ _ H) as H'.
  rewrite (parse_name_loop_found _ _ _ _ _ H' (name_line_property v)
             (name_line_match v Hv)).
  rewrite consume_S. reflexivity.
Qed.

Lemma parse_name_bad (pre rest : list str) (l : str) (w : World) :
  pending w = pre ++ l :: rest ->
  forallb other_property pre = true -> matches property l = false ->
  parse_name w =
  (Raise (ValueError (lit "Expected property, found '" ++ l
                      ++ lit "' at line "
                      ++ (lit "<bound method StdinReader.line of "
                          ++ self_repr (reader w) ++ lit ">")
                      ++ lit ".")),
   consume (S (length pre)) w).
Proof.
  intros H Hp Hl. unfold parse_name.
  destruct (lines_bound_split _ _ _ H) as [fuel ->].
  rewrite (parse_name_loop_skips _ _ _ _ H Hp).
  pose proof (consume_pending _ _ _ H) as H'.
  rewrite (parse_name_loop_bad _ _ _ _ H' Hl).
  rewrite consume_S, consume_repr. reflexivity.
Qed.

Lemma parse_name_eof (pre : list str) (w : World) :
  pending w = pre -> forallb other_property pre = true ->
  parse_name w =
  (Raise (ValueError (lit "Unexpected while parsing name.")),
   consume (length pre) w).
Proof.
  intros H Hp. unfold parse_name. rewrite <- (app_nil_r pre) in H.
  destruct (lines_bound_split _ _ _ H) as [fuel ->].
  rewrite (parse_name_loop_skips _ _ _ _ H Hp).
  apply parse_name_loop_nil. exact (consume_pending _ _ _ H).
Qed.

Lemma parse_sdist_found (pre rest : list str) (l : str) groups (w : World) :
  pending w = pre ++ l :: rest -> forallb no_sdist pre = true ->
  re_match sdist_property l = Some groups ->
  parse_sdist w =
  (Ret (Some (group 1 groups, group 2 groups)), consume (S (length pre)) w).
Proof.
  intros H Hp Hl. unfold parse_sdist.
  destruct (lines_bound_split _ _ _ H) as [fuel ->].
  rewrite (parse_sdist_loop_skips _ _ _ _ H Hp).
  pose proof (consume_pending _ _ _ H) as H'.
  rewrite (parse_sdist_loop_found _ _ _ _ _ H' Hl).
  rewrite consume_S. reflexivity.
Qed.

Lemma parse_sdist_header (pre rest : list str) (w : World) :
  pending w = pre ++ package_header :: rest ->
  forallb no_sdist pre = true ->
  parse_sdist w = (Ret None, consume (length pre) w).
Proof.
  intros H Hp. unfold parse_sdist.
  destruct (lines_bound_split _ _ _ H) as [fuel ->].
  rewrite (parse_sdist_loop_skips _ _ _ _ H Hp).
  exact (parse_sdist_loop_header _ _ _ (consume_pending _ _ _ H)).
Qed.

Lemma parse_sdist_eof (pre : list str) (w : World) :
  pending w = pre -> forallb no_sdist pre = true ->
  parse_sdist w =
  (Raise (ValueError (lit "Unexpected EOF while parsing sdist.")),
   consume (length pre) w).
Proof.
  intros H Hp. unfold parse_sdist. rewrite <- (app_nil_r pre) in H.
  destruct (lines_bound_split _ _ _ H) as [fuel ->].
  rewrite (parse_sdist_loop_skips _ _ _ _ H Hp).
  apply parse_sdist_loop_nil. exact (consume_pending _ _ _ H).
Qed.

Lemma skip_rest_run (pre rest : list str) (w : World) :
  pending w = pre ++ rest -> forallb not_header pre = true ->
  at_boundary rest ->
  skip_rest w = (Ret tt, consume (length pre) w).
Proof.
  intros H Hp Hr. unfold skip_rest.
  destruct (lines_bound_split _ _ _ H) as [fuel ->].
  rewrite (skip_rest_loop_skips _ _ _ _ H Hp).
  pose proof (consume_pending _ _ _ H) as H'.
  destruct Hr as [-> | [more ->]].
  - apply skip_rest_loop_nil, H'.
  - exact (skip_rest_loop_header _ _ _ H').
Qed.

(** ** One package record *)

Lemma consume_pending_cons (pre rest : list str) (l : str) (w : World) :
  pending w = pre ++ l :: rest -> pending (consume (S (length pre)) w) = rest.
Proof.
  intros H. rewrite consume_S.
  exact (pending_tail _ _ _ (consume_pending _ _ _ H)).
Qed.

Lemma print_pending (s : str) (w : World) :
  pending (snd (print s w)) = pending w.
Proof. reflexivity. Qed.

Lemma forallb_not_dq (s : str) : forallb not_dq s = true -> ~ In dq s.
Proof.
  intros H Hin. rewrite forallb_forall in H. specialize (H _ Hin).
  discriminate.
Qed.

(** Name found, sdist of the hash form found: one block, then the rest of
    the record is skipped. *)
Lemma parse_dependency_details_found
      (before between after rest : list str) (v url hex fields trail : str)
      (w : World) :
  pending w = before ++ name_line v :: between
              ++ sdist_line url hex fields trail :: after ++ rest ->
  forallb other_property before = true -> ~ In nl v ->
  forallb no_sdist between = true ->
  ~ In dq url -> ~ In dq hex -> ~ In nl fields ->
  forallb not_header after = true -> at_boundary rest ->
  exists w',
    parse_dependency_details w = (Ret tt, w')
    /\ sys_stdout w' =
       sys_stdout w ++ resource_block (replace hyphen underscore v) url hex
    /\ pending w' = rest
    /\ self_repr (reader w') = self_repr (reader w).
Proof.
  intros H Hb Hv Hm Hu Hh Hf Ha Hr.
  unfold parse_dependency_details.
  step_with (parse_name_found _ _ _ _ H Hb Hv).
  pose proof (consume_pending_cons _ _ _ _ H) as H1.
  step_with (parse_sdist_found _ _ _ _ _ H1 Hm
               (sdist_line_match url hex fields trail Hu Hh Hf)).
  pose proof (consume_pending_cons _ _ _ _ H1) as H2.
  cbn [group Nat.sub nth].
  match goal with |- context [print ?s] => set (text := s) end.
  unfold bind at 1. cbn [print].
  set (w2 := mkWorld _ _ _).
  assert (H3 : pending w2 = after ++ rest) by exact H2.
  rewrite (skip_rest_run _ _ _ H3 Ha Hr).
  eexists. split; [reflexivity|]. split; [|split].
  - rewrite consume_stdout. subst w2. cbn [sys_stdout].
    rewrite !consume_stdout. subst text. unfold resource_block.
    repeat rewrite <- app_assoc. reflexivity.
  - exact (consume_pending _ _ _ H3).
  - rewrite consume_repr. subst w2. cbn [reader].
    rewrite !consume_repr. reflexivity.
Qed.

(** Name found, then a package header before any sdist of the hash form:
    nothing is written and the header stays. *)
Lemma parse_dependency_details_header
      (before between more : list str) (v : str) (w : World) :
  pending w = before ++ name_line v :: between ++ package_header :: more ->
  forallb other_property before = true -> ~ In nl v ->
  forallb no_sdist between = true ->
  parse_dependency_details w =
  (Ret tt, consume (length between) (consume (S (length before)) w)).
Proof.
  intros H Hb Hv Hm. unfold parse_dependency_details.
  step_with (parse_name_found _ _ _ _ H Hb Hv).
  pose proof (consume_pending_cons _ _ _ _ H) as H1.
  step_with (parse_sdist_header _ _ _ H1 Hm). reflexivity.
Qed.

(** Name found, then the end of the input before any sdist of the hash
    form. *)
Lemma parse_dependency_details_eof
      (before between : list str) (v : str) (w : World) :
  pending w = before ++ name_line v :: between ->
  forallb other_property before = true -> ~ In nl v ->
  forallb no_sdist between = true ->
  parse_dependency_details w =
  (Raise (ValueError (lit "Unexpected EOF while parsing sdist.")),
   consume (length between) (consume (S (length before)) w)).
Proof.
  intros H Hb Hv Hm. unfold parse_dependency_details.
  step_with (parse_name_found _ _ _ _ H Hb Hv).
  pose proof (consume_pending_cons _ _ _ _ H) as H1.
  rewrite (bind_raise _ _ _ _ _ (parse_sdist_eof _ _ H1 Hm)). reflexivity.
Qed.

Lemma in_name_line (v : str) : In nl v -> In nl (name_line v).
Proof.
  intros H. unfold name_line. rewrite !in_app_iff. tauto.
Qed.

Lemma in_sdist_line (url hex fields trail : str) :
  In nl fields -> In nl (sdist_line url hex fields trail).
Proof.
  intros H. unfold sdist_line. rewrite !in_app_iff. tauto.
Qed.

Lemma package_lines_boundary (ps : list package) :
  at_boundary (concat (map package_lines ps)).
Proof.
  destruct ps as [|p ps]; [left; reflexivity|].
  right. simpl. eexists. reflexivity.
Qed.

(** A well-formed package at the front of the pending lines. *)
Lemma parse_dependency_package (p : package) (rest : list str) (w : World) :
  pending w = package_lines p ++ rest ->
  Forall (fun l => ~ In nl l) (package_lines p) ->
  well_formed p = true -> at_boundary rest ->
  exists w',
    parse_dependency w = (Ret tt, w')
    /\ sys_stdout w' = sys_stdout w ++ package_block p
    /\ pending w' = rest
    /\ self_repr (reader w') = self_repr (reader w).
Proof.
  intros H Hnl Hwf Hr. unfold well_formed in Hwf.
  apply andb_true_iff in Hwf; destruct Hwf as [Hwf Wafter].
  apply andb_true_iff in Hwf; destruct Hwf as [Hwf Whex].
  apply andb_true_iff in Hwf; destruct Hwf as [Hwf Wurl].
  apply andb_true_iff in Hwf; destruct Hwf as [Wbefore Wbetween].
  unfold package_lines in H, Hnl. cbn [app] in H.
  rewrite (parse_dependency_header _ _ H).
  pose proof (pending_tail _ _ _ H) as H1.
  rewrite <- app_assoc in H1. cbn [app] in H1.
  rewrite <- app_assoc in H1. cbn [app] in H1.
  inversion Hnl as [|? ? _ Hnl1]; subst.
  apply Forall_app in Hnl1. destruct Hnl1 as [_ Hnl1].
  inversion Hnl1 as [|? ? Hn Hnl2]; subst.
  apply Forall_app in Hnl2. destruct Hnl2 as [_ Hnl2].
  inversion Hnl2 as [|? ? Hs _]; subst.
  destruct (parse_dependency_details_found _ _ _ _ _ _ _ _ _ _ H1)
    as (w' & E & Ho & Hp & Hrepr); try assumption.
  - intros Hin. apply Hn, in_name_line, Hin.
  - apply forallb_not_dq; assumption.
  - apply forallb_not_dq; assumption.
  - intros Hin. apply Hs, in_sdist_line, Hin.
  - exists w'. rewrite E, Ho, Hp, Hrepr.
    rewrite refill_stdout, refill_repr. auto.
Qed.

(** The outer loop over a run of well-formed packages. *)
Lemma read_lockfile_loop_packages (ps : list package) (w : World) (fuel : nat) :
  pending w = concat (map package_lines ps) ->
  Forall (fun l => ~ In nl l) (pending w) ->
  forallb well_formed ps = true ->
  length ps < fuel ->
  exists w',
    read_lockfile_loop fuel w = (Ret tt, w')
    /\ sys_stdout w' = sys_stdout w ++ concat (map package_block ps)
    /\ pending w' = [].
Proof.
  revert w fuel; induction ps as [|p ps IH]; intros w fuel H Hnl Hwf Hf.
  - destruct fuel as [|fuel]; [simpl in Hf; lia|].
    exists w. rewrite (read_lockfile_loop_nil _ _ H).
    simpl. rewrite app_nil_r. auto.
  - destruct fuel as [|fuel]; [simpl in Hf; lia|].
    simpl in Hwf. apply andb_true_iff in Hwf. destruct Hwf as [Hp Hwf].
    cbn [map concat] in H. rewrite H in Hnl.
    apply Forall_app in Hnl. destruct Hnl as [Hnl1 Hnl2].
    destruct (parse_dependency_package p _ w H Hnl1 Hp
                (package_lines_boundary ps)) as (w1 & E & Ho & Hq & _).
    assert (Hc : exists l ls, pending w = l :: ls).
    { rewrite H. unfold package_lines. simpl. eauto. }
    destruct Hc as (l & ls & Hc).
    rewrite (read_lockfile_loop_cons _ _ _ _ Hc).
    rewrite (bind_ret _ _ _ _ _ E).
    destruct (IH w1 fuel Hq) as (w' & E' & Ho' & Hq').
    + rewrite Hq. exact Hnl2.
    + exact Hwf.
    + simpl in Hf. lia.
    + exists w'. rewrite E', Ho', Ho, Hq'. cbn [map concat].
      rewrite <- app_assoc. auto.
Qed.

(** ** The whole program *)

Lemma main_start (repr stdin : str) :
  main repr stdin = read_lockfile (start repr stdin).
Proof.
  unfold main, start, StdinReader_init, bind, get_reader, put_reader.
  cbn [boot reader self_repr buffer sys_stdin sys_stdout].
  rewrite update_buffer_refill. reflexivity.
Qed.

Lemma start_refill (repr stdin : str) :
  start repr stdin = refill (boot repr stdin).
Proof.
  unfold start, StdinReader_init, bind, get_reader, put_reader.
  cbn [boot reader self_repr buffer sys_stdin sys_stdout].
  rewrite update_buffer_refill. reflexivity.
Qed.

Lemma start_pending (repr stdin : str) :
  pending (start repr stdin) = lines stdin.
Proof. rewrite start_refill, refill_pending. reflexivity. Qed.

Lemma start_stdout (repr stdin : str) : sys_stdout (start repr stdin) = [].
Proof. rewrite start_refill, refill_stdout. reflexivity. Qed.

Lemma start_repr (repr stdin : str) :
  self_repr (reader (start repr stdin)) = repr.
Proof. rewrite start_refill, refill_repr. reflexivity. Qed.

Lemma start_line (repr stdin : str) :
  current_line (reader (start repr stdin)) =
  match lines stdin with [] => 0%Z | _ :: _ => 1%Z end.
Proof. rewrite start_refill, refill_line. reflexivity. Qed.

Lemma packages_length (ps : list package) :
  length ps <= length (concat (map package_lines ps)).
Proof.
  induction ps as [|p ps IH]; simpl; [lia|].
  rewrite length_app. lia.
Qed.

Lemma replace_hyphens (s : str) :
  replace hyphen underscore s = hyphens_to_underscores s.
Proof.
  induction s as [|c s IH]; [reflexivity|].
  simpl. rewrite <- IH. reflexivity.
Qed.

Lemma package_block_expected (p : package) :
  package_block p = expected_block p.
Proof.
  unfold package_block, expected_block. rewrite replace_hyphens.
  reflexivity.
Qed.

(** C1.  An input made of a preamble of blank and property lines followed
    by N well-formed package records, each with a name line and an sdist
    line of the sha256-hash form: [main] ends normally and standard output
    holds exactly the N resource blocks, in the order of the records, each
    the template with the url and the hash copied as they are and the name
    with its hyphens turned into underscores, followed by a blank line. *)
Theorem main_writes_one_block_per_package
        (repr stdin : str) (preamble : list str) (ps : list package) :
  lines stdin = preamble ++ concat (map package_lines ps) ->
  forallb initial_line preamble = true ->
  forallb well_formed ps = true ->
  fst (main repr stdin) = Ret tt
  /\ sys_stdout (snd (main repr stdin)) = concat (map expected_block ps).
Proof.
  intros H Hpre Hwf. rewrite main_start. unfold read_lockfile.
  pose proof (start_pending repr stdin) as H0. rewrite H in H0.
  assert (Hstop : match concat (map package_lines ps) with
                  | [] => True
                  | l :: _ => initial_line l = false
                  end).
  { destruct ps; [exact I | reflexivity]. }
  rewrite (bind_ret _ _ _ _ _ (skip_initial_fields_run _ _ _ H0 Hpre Hstop)).
  set (w1 := consume (length preamble) (start repr stdin)).
  pose proof (consume_pending _ _ _ H0 : pending w1 = _) as H1.
  destruct (read_lockfile_loop_packages ps w1 (lines_bound w1) H1)
    as (w' & E & Ho & _).
  - rewrite H1. pose proof (lines_no_nl stdin) as Hnl. rewrite H in Hnl.
    apply Forall_app in Hnl. tauto.
  - exact Hwf.
  - pose proof (pending_bound w1) as B. rewrite H1 in B.
    pose proof (packages_length ps). lia.
  - rewrite E. cbn [fst snd]. split; [reflexivity|].
    rewrite Ho. unfold w1. rewrite consume_stdout, start_stdout.
    rewrite (map_ext _ _ package_block_expected). reflexivity.
Qed.

Lemma main_writes_one_block_per_package_witness :
  lines manifest_two_packages =
    [lit "version = 1"; []]
    ++ concat (map package_lines [example_package; second_package])
  /\ fst (main [] manifest_two_packages) = Ret tt
  /\ sys_stdout (snd (main [] manifest_two_packages)) =
     concat (map expected_block [example_package; second_package]).
Proof.
  split; [vm_compute; reflexivity|].
  apply (main_writes_one_block_per_package [] manifest_two_packages
           [lit "version = 1"; []] [example_package; second_package]);
    vm_compute; reflexivity.
Defined.

(** The output on [manifest_two_packages], character for character. *)
Example manifest_two_packages_output :
  sys_stdout (snd (main [] manifest_two_packages)) =
  unlines [lit "  resource " ++ [dq] ++ lit "foo_bar" ++ [dq] ++ lit " do";
           lit "    url " ++ [dq] ++ lit "https://x/y.tar.gz" ++ [dq];
           lit "    sha256 " ++ [dq] ++ lit "abc123" ++ [dq];
           lit "  end";
           [];
           lit "  resource " ++ [dq] ++ lit "my_other_pkg" ++ [dq] ++ lit " do";
           lit "    url " ++ [dq] ++ lit "https://x/z-1.0.tar.gz" ++ [dq];
           lit "    sha256 " ++ [dq] ++ lit "def456" ++ [dq];
           lit "  end";
           []].
Proof. vm_compute. reflexivity. Qed.

Example example_manifest_output :
  sys_stdout (snd (main [] example_manifest)) =
  unlines [lit "  resource " ++ [dq] ++ lit "foo_bar" ++ [dq] ++ lit " do";
           lit "    url " ++ [dq] ++ lit "https://x/y.tar.gz" ++ [dq];
           lit "    sha256 " ++ [dq] ++ lit "abc123" ++ [dq];
           lit "  end";
           []].
Proof. vm_compute. reflexivity. Qed.

Section TakeDrop.
Context {A : Type} (f : A -> bool).

Lemma take_drop_while (l : list A) : take_while f l ++ drop_while f l = l.
Proof.
  induction l as [|x l IH]; simpl; [reflexivity|].
  destruct (f x); simpl; [rewrite IH|]; reflexivity.
Qed.

Lemma take_while_all (l : list A) : forallb f (take_while f l) = true.
Proof.
  induction l as [|x l IH]; simpl; [reflexivity|].
  destruct (f x) eqn:E; simpl; [rewrite E, IH|]; reflexivity.
Qed.

Lemma drop_while_head (l : list A) :
  match drop_while f l with [] => True | x :: _ => f x = false end.
Proof.
  induction l as [|x l IH]; simpl; [exact I|].
  destruct (f x) eqn:E; [exact IH | exact E].
Qed.

Lemma drop_while_nil (l : list A) :
  drop_while f l = [] <-> forallb f l = true.
Proof.
  induction l as [|x l IH]; simpl; [tauto|].
  destruct (f x); simpl; [exact IH|]. split; discriminate.
Qed.
End TakeDrop.

Lemma consume_line (pre rest : list str) (w : World) :
  pending w = pre ++ rest -> rest <> [] ->
  current_line (reader (consume (length pre) w)) =
  (current_line (reader w) + Z.of_nat (length pre))%Z.
Proof.
  intros H Hr. revert w H; induction pre as [|l pre IH]; intros w H.
  - simpl. lia.
  - cbn [length consume].
    assert (H' : pending (refill w) = pre ++ rest)
      by exact (pending_tail _ _ _ H).
    rewrite (IH _ H'), refill_line, <- refill_pending, H'.
    destruct (pre ++ rest) eqn:E; [|lia].
    apply app_eq_nil in E. destruct E. contradiction.
Qed.

(** The first line that is neither blank nor a property, when it is not a
    package header, stops the run.  The line number in the message is the
    reader's count after that line was taken, so it is the position of the
    offending line only when no line follows it. *)
Lemma main_header_error (repr stdin : str) (preamble ls : list str) (l : str) :
  lines stdin = preamble ++ l :: ls ->
  forallb initial_line preamble = true ->
  initial_line l = false -> l <> package_header ->
  main repr stdin =
  (Raise (ValueError
            (lit "Expected package header at line "
             ++ str_of_int (Z.of_nat (length preamble) + 1
                            + match ls with [] => 0 | _ :: _ => 1 end)
             ++ lit ", found '" ++ l ++ lit "'.")),
   refill (consume (length preamble) (start repr stdin))).
Proof.
  intros H Hpre Hl Hh. rewrite main_start. unfold read_lockfile.
  pose proof (start_pending repr stdin) as H0. rewrite H in H0.
  rewrite (bind_ret _ _ _ _ _
             (skip_initial_fields_run _ (l :: ls) _ H0 Hpre Hl)).
  set (w1 := consume (length preamble) (start repr stdin)).
  pose proof (consume_pending _ _ _ H0 : pending w1 = _) as H1.
  unfold lines_bound. cbn [Nat.add].
  rewrite (read_lockfile_loop_cons _ _ _ _ H1).
  rewrite (bind_raise _ _ _ _ _ (parse_dependency_bad _ _ _ H1 Hh)).
  rewrite refill_line, <- refill_pending, (pending_tail _ _ _ H1).
  unfold w1. rewrite (consume_line _ _ _ H0) by discriminate.
  rewrite start_line, H.
  replace (match preamble ++ l :: ls with [] => 0 | _ :: _ => 1 end)%Z
    with 1%Z by (destruct preamble; reflexivity).
  match goal with |- context [str_of_int ?x] =>
    replace x with (Z.of_nat (length preamble) + 1
                    + match ls with [] => 0 | _ :: _ => 1 end)%Z by lia
  end.
  reflexivity.
Qed.

(** An input of blank and property lines only. *)
Lemma main_only_initial_lines (repr stdin : str) :
  forallb initial_line (lines stdin) = true ->
  main repr stdin =
  (Ret tt, consume (length (lines stdin)) (start repr stdin)).
Proof.
  intros Hall. rewrite main_start. unfold read_lockfile.
  pose proof (start_pending repr stdin) as H0.
  rewrite <- (app_nil_r (lines stdin)) in H0.
  rewrite (bind_ret _ _ _ _ _ (skip_initial_fields_run _ _ _ H0 Hall I)).
  unfold lines_bound. cbn [Nat.add].
  apply read_lockfile_loop_nil. exact (consume_pending _ _ _ H0).
Qed.

(** C8, as amended.  On an input without any package header nothing is
    written to standard output.  The run ends normally when every line is
    blank or a generic property line, the empty input included; any other
    such input ends in the error raised where a package header is
    required, at the first line that is neither. *)
Theorem main_without_headers (repr stdin : str) :
  ~ In package_header (lines stdin) ->
  sys_stdout (snd (main repr stdin)) = []
  /\ (forallb initial_line (lines stdin) = true ->
      fst (main repr stdin) = Ret tt)
  /\ (forallb initial_line (lines stdin) = false ->
      exists n pre l ls,
        lines stdin = pre ++ l :: ls
        /\ forallb initial_line pre = true /\ initial_line l = false
        /\ fst (main repr stdin) =
           Raise (ValueError (lit "Expected package header at line "
                              ++ str_of_int n
                              ++ lit ", found '" ++ l ++ lit "'."))).
Proof.
  intros Hno.
  pose proof (take_drop_while initial_line (lines stdin)) as Hsplit.
  pose proof (take_while_all initial_line (lines stdin)) as Hpre.
  pose proof (drop_while_head initial_line (lines stdin)) as Hhead.
  pose proof (drop_while_nil initial_line (lines stdin)) as Hnil.
  destruct (drop_while initial_line (lines stdin)) as [|l ls] eqn:D.
  - assert (Hall : forallb initial_line (lines stdin) = true)
      by (apply Hnil; reflexivity).
    rewrite (main_only_initial_lines _ _ Hall). cbn [fst snd].
    repeat split; [rewrite consume_stdout; apply start_stdout |].
    rewrite Hall. discriminate.
  - assert (Hin : In l (lines stdin)).
    { rewrite <- Hsplit. apply in_or_app. right. left. reflexivity. }
    assert (Hh : l <> package_header) by (intros ->; contradiction).
    rewrite (main_header_error repr stdin _ ls l (eq_sym Hsplit) Hpre
               Hhead Hh).
    cbn [fst snd]. split; [|split].
    + rewrite refill_stdout, consume_stdout. apply start_stdout.
    + intros Hall. apply Hnil in Hall. discriminate.
    + intros _.
      exists (Z.of_nat (length (take_while initial_line (lines stdin))) + 1
              + match ls with [] => 0 | _ :: _ => 1 end)%Z,
             (take_while initial_line (lines stdin)), l, ls.
      repeat split; [symmetry; exact Hsplit | exact Hpre | exact Hhead].
Qed.

Lemma main_without_headers_witness :
  ~ In package_header (lines (unlines [lit "version = 1"; []]))
  /\ sys_stdout (snd (main [] (unlines [lit "version = 1"; []]))) = []
  /\ fst (main [] (unlines [lit "version = 1"; []])) = Ret tt.
Proof.
  assert (H : ~ In package_header (lines (unlines [lit "version = 1"; []]))).
  { vm_compute. intuition discriminate. }
  split; [exact H|].
  destruct (main_without_headers [] _ H) as (Ho & Hok & _).
  split; [exact Ho | apply Hok; vm_compute; reflexivity].
Defined.

(** The claim C8 as it was stated fails on a one-line input that is
    neither blank nor a property: no header, and the run does not end
    normally. *)
Lemma main_without_headers_counterexample :
  ~ (~ In package_header (lines (lit "garbage")) ->
     sys_stdout (snd (main [] (lit "garbage"))) = []
     /\ fst (main [] (lit "garbage")) = Ret tt).
Proof.
  intros H.
  assert (Hno : ~ In package_header (lines (lit "garbage"))).
  { vm_compute. intuition discriminate. }
  destruct (H Hno) as [_ E]. vm_compute in E. discriminate.
Qed.

(** C3 (the code departs from the claim).  Neither message carries the
    1-based position of the offending line.  On [manifest_without_header]
    the line [garbage] is line 1, and [parse_dependency] reports line 2: it
    asks the reader for the count after [next] has already read one line
    ahead.  On [manifest_with_stray_line] the line [oops] is line 2, and
    [parse_name] reports no number at all: the f-string formats the method
    [reader.line] itself instead of calling it. *)
Theorem malformed_manifest_messages (repr : str) :
  fst (main repr manifest_without_header) =
  Raise (ValueError
           (lit "Expected package header at line 2, found 'garbage'."))
  /\ fst (main repr manifest_with_stray_line) =
     Raise (ValueError
              (lit "Expected property, found 'oops' at line "
               ++ (lit "<bound method StdinReader.line of " ++ repr
                   ++ lit ">")
               ++ lit ".")).
Proof. split; vm_compute; reflexivity. Qed.

(** ** The line counter *)

Lemma has_line_pending (w : World) :
  has_line w = match pending w with [] => false | _ :: _ => true end.
Proof.
  unfold has_line, pending, has_next, bind, get_reader, ret.
  destruct (buffer (reader w)); reflexivity.
Qed.

Lemma peek_world (w : World) : snd (peek w) = w.
Proof.
  destruct (pending w) as [|l ls] eqn:P.
  - rewrite (peek_nil _ P). reflexivity.
  - rewrite (peek_cons _ _ _ P). reflexivity.
Qed.

Lemma run_op_counts (o : op) (w : World) (n : nat) :
  counts w n -> counts (fst (run_op o w)) (n + snd (run_op o w)).
Proof.
  unfold counts. intros H. destruct o; cbn [run_op fst snd].
  - rewrite Nat.add_0_r. exact H.
  - rewrite peek_world, Nat.add_0_r. exact H.
  - destruct (pending w) as [|l ls] eqn:P.
    + rewrite (next_nil _ P). cbn [fst snd]. rewrite Nat.add_0_r. exact H.
    + rewrite (next_cons _ _ _ P). cbn [fst snd].
      rewrite refill_line, H, !has_line_pending, P, refill_pending.
      destruct (lines (sys_stdin w)); lia.
  - rewrite Nat.add_0_r. exact H.
Qed.

Lemma run_ops_counts (os : list op) (w : World) (n : nat) :
  counts w n -> counts (fst (run_ops os w)) (n + snd (run_ops os w)).
Proof.
  revert w n; induction os as [|o os IH]; intros w n H; cbn [run_ops].
  - cbn [fst snd]. rewrite Nat.add_0_r. exact H.
  - pose proof (run_op_counts o w n H) as H1.
    destruct (run_op o w) as [w1 n1]. cbn [fst snd] in H1.
    specialize (IH w1 (n + n1) H1).
    destruct (run_ops os w1) as [w2 n2]. cbn [fst snd] in *.
    rewrite Nat.add_assoc. exact IH.
Qed.

Lemma start_counts (repr stdin : str) : counts (start repr stdin) 0.
Proof.
  unfold counts. rewrite start_line, has_line_pending, start_pending.
  destruct (lines stdin); reflexivity.
Qed.

(** C4, as amended.  After any sequence of reader operations on any input,
    [line()] returns the number of lines read from the stream so far, the
    line waiting in the lookahead buffer included: the number of completed
    [next()] calls plus one while [has_next()] holds, and exactly that
    number once the input is exhausted.  [peek()], [has_next()] and
    [line()] leave the reader, and so the count, as they found it. *)
Theorem line_counts_lines_read (repr stdin : str) (os : list op) :
  let w := fst (run_ops os (start repr stdin)) in
  let n := snd (run_ops os (start repr stdin)) in
  fst (line w) = Ret (Z.of_nat n + if has_line w then 1 else 0)%Z
  /\ snd (peek w) = w /\ snd (has_next w) = w /\ snd (line w) = w.
Proof.
  intros w n. split; [|split; [apply peek_world | split; reflexivity]].
  pose proof (run_ops_counts os _ 0 (start_counts repr stdin)) as H.
  unfold counts in H. cbn [Nat.add] in H. fold w n in H.
  unfold line, bind, get_reader, ret. cbn [fst]. rewrite H. reflexivity.
Qed.

(** The claim C4 as it was stated fails before the first [next()]: on a
    one-line input nothing has been consumed and [line()] is 1. *)
Lemma line_counts_lines_read_counterexample :
  fst (line (fst (run_ops [] (start [] (unlines [lit "a"]))))) <>
  Ret (Z.of_nat (snd (run_ops [] (start [] (unlines [lit "a"]))))).
Proof. vm_compute. discriminate. Qed.

(** ** Records without a usable sdist *)




(** C6.  A record in which the input ends during the sdist scan, after the
    name and before an sdist line of the hash form or a further header:
    [parse_sdist] raises [ValueError], which leaves [parse_dependency] and
    the outer loop unhandled, and nothing is written for the record. *)
Theorem truncated_record_is_fatal
        (w : World) (before between : list str) (v : str) (fuel : nat) :
  pending w = package_header :: before ++ name_line v :: between ->
  forallb other_property before = true -> ~ In nl v ->
  forallb no_sdist between = true ->
  fst (parse_sdist (consume (S (length before)) (refill w))) =
    Raise (ValueError (lit "Unexpected EOF while parsing sdist."))
  /\ fst (parse_dependency w) =
     Raise (ValueError (lit "Unexpected EOF while parsing sdist."))
  /\ fst (read_lockfile_loop (S fuel) w) =
     Raise (ValueError (lit "Unexpected EOF while parsing sdist."))
  /\ sys_stdout (snd (read_lockfile_loop (S fuel) w)) = sys_stdout w.
Proof.
  intros H Hb Hv Hm.
  pose proof (pending_tail _ _ _ H) as H1.
  pose proof (parse_dependency_details_eof _ _ _ _ H1 Hb Hv Hm) as E.
  rewrite <- (parse_dependency_header _ _ H) in E.
  split.
  - rewrite (parse_sdist_eof _ _ (consume_pending_cons _ _ _ _ H1) Hm).
    reflexivity.
  - rewrite (read_lockfile_loop_cons _ _ _ _ H).
    rewrite (bind_raise _ _ _ _ _ E), E. cbn [fst snd].
    repeat split. rewrite !consume_stdout. apply refill_stdout.
Qed.

Lemma truncated_record_is_fatal_witness :
  let w := start [] manifest_truncated in
  fst (parse_sdist (consume 1 (refill w))) =
    Raise (ValueError (lit "Unexpected EOF while parsing sdist."))
  /\ fst (parse_dependency w) =
     Raise (ValueError (lit "Unexpected EOF while parsing sdist."))
  /\ fst (read_lockfile_loop 1 w) =
     Raise (ValueError (lit "Unexpected EOF while parsing sdist."))
  /\ sys_stdout (snd (read_lockfile_loop 1 w)) = sys_stdout w.
Proof.
  apply (truncated_record_is_fatal (start [] manifest_truncated)
           [] [lit "version = 1"] (lit "bare") 0).
  - vm_compute. reflexivity.
  - reflexivity.
  - vm_compute. intuition discriminate.
  - vm_compute. reflexivity.
Defined.

Lemma sdist_line_other_property (url hex fields trail : str) :
  other_property (sdist_line url hex fields trail) = true.
Proof.
  unfold other_property, sdist_line.
  rewrite sdist_head_property, sdist_head_not_name. reflexivity.
Qed.

(** C2.  A record whose sdist line stands before its name line: the name
    scan takes the sdist line as one more property and consumes it, the
    sdist scan starts behind the name line and so never meets it, no
    descriptor comes out of the scan (it ends at the next header with
    [None], or at the end of the input with the truncation error), and
    nothing is written for the record. *)
Theorem sdist_before_name_is_missed
        (w : World) (before1 before2 between rest : list str)
        (url hex fields trail v : str) :
  pending w =
    package_header
    :: (before1 ++ sdist_line url hex fields trail :: before2)
    ++ name_line v :: between ++ rest ->
  forallb other_property before1 = true ->
  forallb other_property before2 = true ->
  ~ In nl v -> forallb no_sdist between = true -> at_boundary rest ->
  let before := before1 ++ sdist_line url hex fields trail :: before2 in
  let w2 := consume (S (length before)) (refill w) in
  parse_name (refill w) = (Ret (replace hyphen underscore v), w2)
  /\ pending w2 = between ++ rest
  /\ fst (parse_sdist w2) =
     match rest with
     | [] => Raise (ValueError (lit "Unexpected EOF while parsing sdist."))
     | _ :: _ => Ret None
     end
  /\ sys_stdout (snd (parse_dependency w)) = sys_stdout w.
Proof.
  intros H Hb1 Hb2 Hv Hm Hr before w2.
  assert (Hb : forallb other_property before = true).
  { unfold before. rewrite forallb_app. cbn [forallb].
    rewrite Hb1, Hb2, sdist_line_other_property. reflexivity. }
  pose proof (pending_tail _ _ _ H) as H1. fold before in H1.
  pose proof (consume_pending_cons _ _ _ _ H1 : pending w2 = _) as H2.
  rewrite (parse_dependency_header _ _ H).
  split; [exact (parse_name_found _ _ _ _ H1 Hb Hv)|].
  split; [exact H2|].
  destruct Hr as [-> | [more ->]].
  - rewrite app_nil_r in H1, H2.
    rewrite (parse_sdist_eof _ _ H2 Hm).
    rewrite (parse_dependency_details_eof _ _ _ _ H1 Hb Hv Hm).
    cbn [fst snd]. split; [reflexivity|].
    rewrite !consume_stdout. apply refill_stdout.
  - rewrite (parse_sdist_header _ _ _ H2 Hm).
    rewrite (parse_dependency_details_header _ _ _ _ _ H1 Hb Hv Hm).
    cbn [fst snd]. split; [reflexivity|].
    rewrite !consume_stdout. apply refill_stdout.
Qed.

Lemma sdist_before_name_is_missed_witness :
  let w := start [] manifest_sdist_first in
  let w2 := consume 2 (refill w) in
  parse_name (refill w) = (Ret (lit "late"), w2)
  /\ pending w2 = [lit "version = 1"] ++ [package_header]
  /\ fst (parse_sdist w2) = Ret None
  /\ sys_stdout (snd (parse_dependency w)) = sys_stdout w.
Proof.
  apply (sdist_before_name_is_missed (start [] manifest_sdist_first)
           [] [] [lit "version = 1"] [package_header]
           (lit "u") (lit "h") (lit "size = 1 ") [] (lit "late")).
  - vm_compute. reflexivity.
  - reflexivity.
  - reflexivity.
  - vm_compute. intuition discriminate.
  - vm_compute. reflexivity.
  - right. exists []. reflexivity.
Defined.

(** C9.  A blank or whitespace-only line between a package header and the
    name line does not match the generic property pattern, so the name
    scan raises [ValueError]; the error leaves [parse_dependency] and the
    outer loop unhandled, and nothing is written. *)
Theorem blank_line_before_name_is_fatal
        (w : World) (before rest : list str) (blank : str) (fuel : nat) :
  pending w = package_header :: before ++ blank :: rest ->
  forallb other_property before = true ->
  forallb space blank = true ->
  let msg :=
    lit "Expected property, found '" ++ blank ++ lit "' at line "
    ++ (lit "<bound method StdinReader.line of " ++ self_repr (reader w)
        ++ lit ">")
    ++ lit "." in
  matches property blank = false
  /\ fst (parse_dependency w) = Raise (ValueError msg)
  /\ fst (read_lockfile_loop (S fuel) w) = Raise (ValueError msg)
  /\ sys_stdout (snd (read_lockfile_loop (S fuel) w)) = sys_stdout w.
Proof.
  intros H Hb Hs msg.
  pose proof (whitespace_not_property _ Hs) as Hp.
  pose proof (parse_name_bad _ _ _ _ (pending_tail _ _ _ H) Hb Hp) as E.
  rewrite refill_repr in E. fold msg in E.
  assert (E' : parse_dependency w =
               (Raise (ValueError msg),
                consume (S (length before)) (refill w))).
  { rewrite (parse_dependency_header _ _ H). unfold parse_dependency_details.
    exact (bind_raise _ _ _ _ _ E). }
  rewrite (read_lockfile_loop_cons _ _ _ _ H).
  rewrite (bind_raise _ _ _ _ _ E'), E'. cbn [fst snd].
  repeat split; [exact Hp|].
  rewrite consume_stdout. apply refill_stdout.
Qed.

Lemma blank_line_before_name_is_fatal_witness :
  let w := start [] manifest_blank_before_name in
  let msg :=
    lit "Expected property, found '" ++ lit "  " ++ lit "' at line "
    ++ (lit "<bound method StdinReader.line of " ++ [] ++ lit ">")
    ++ lit "." in
  matches property (lit "  ") = false
  /\ fst (parse_dependency w) = Raise (ValueError msg)
  /\ fst (read_lockfile_loop 1 w) = Raise (ValueError msg)
  /\ sys_stdout (snd (read_lockfile_loop 1 w)) = sys_stdout w.
Proof.
  apply (blank_line_before_name_is_fatal
           (start [] manifest_blank_before_name)
           [] [name_line (lit "a")] (lit "  ") 0).
  - vm_compute. reflexivity.
  - reflexivity.
  - vm_compute. reflexivity.
Defined.

(** ** The sdist scan *)

(** Past the number of pending lines, more fuel changes nothing. *)
Lemma parse_sdist_loop_fuel (f1 f2 : nat) (w : World) :
  length (pending w) < f1 -> length (pending w) < f2 ->
  parse_sdist_loop f1 w = parse_sdist_loop f2 w.
Proof.
  revert f2 w; induction f1 as [|f1 IH]; intros f2 w H1 H2; [lia|].
  destruct f2 as [|f2]; [lia|].
  destruct (pending w) as [|l ls] eqn:P.
  - rewrite !(parse_sdist_loop_nil _ _ P). reflexivity.
  - destruct (str_eqb l package_header) eqn:Eh.
    + apply str_eqb_eq in Eh. subst l.
      rewrite !(parse_sdist_loop_header _ _ _ P). reflexivity.
    + destruct (re_match sdist_property l) as [gs|] eqn:Es.
      * rewrite !(parse_sdist_loop_found _ _ _ _ _ P Es). reflexivity.
      * assert (Hl : no_sdist l = true).
        { unfold no_sdist, matches. rewrite Eh, Es. reflexivity. }
        rewrite !(parse_sdist_loop_skip _ _ _ _ P Hl).
        pose proof (pending_tail _ _ _ P) as P'.
        apply IH; rewrite P'; simpl in *; lia.
Qed.

(** C10.  An sdist line whose inline table ends right after the hash
    field (what follows the closing quote of the hash is not a comma and a
    space): the sdist pattern does not match it, and the scan that meets
    it consumes it and goes on exactly as it does from the next line. *)
Theorem sdist_without_further_field_is_ignored
        (w : World) (ls : list str) (url hex tail : str) :
  ~ In dq url -> ~ In dq hex -> (forall r, tail <> lit ", " ++ r) ->
  pending w = (sdist_head url hex ++ tail) :: ls ->
  re_match sdist_property (sdist_head url hex ++ tail) = None
  /\ pending (refill w) = ls
  /\ parse_sdist w = parse_sdist (refill w).
Proof.
  intros Hu Hh Ht H.
  pose proof (sdist_head_no_match _ _ _ Hu Hh Ht) as E.
  split; [exact E|]. split; [exact (pending_tail _ _ _ H)|].
  assert (Hl : no_sdist (sdist_head url hex ++ tail) = true).
  { unfold no_sdist, matches. rewrite E. reflexivity. }
  unfold parse_sdist at 1. unfold lines_bound. cbn [Nat.add].
  rewrite (parse_sdist_loop_skip _ _ _ _ H Hl).
  apply parse_sdist_loop_fuel.
  - rewrite refill_pending. pose proof (lines_length (sys_stdin w)). lia.
  - apply pending_bound.
Qed.

Lemma sdist_without_further_field_is_ignored_witness :
  let w := start [] manifest_short_sdist in
  re_match sdist_property (sdist_head (lit "u") (lit "h") ++ lit " }") = None
  /\ pending (refill w) = [package_header]
  /\ parse_sdist w = parse_sdist (refill w).
Proof.
  apply (sdist_without_further_field_is_ignored
           (start [] manifest_short_sdist) [package_header]
           (lit "u") (lit "h") (lit " }")).
  - vm_compute. intuition discriminate.
  - vm_compute. intuition discriminate.
  - intros r. vm_compute. discriminate.
  - vm_compute. reflexivity.
Defined.

(** ** The tail of a record *)

Lemma parse_sdist_loop_none_boundary (fuel : nat) (w w2 : World) :
  parse_sdist_loop fuel w = (Ret None, w2) ->
  exists more, pending w2 = package_header :: more.
Proof.
  revert w; induction fuel as [|fuel IH]; intros w H; [discriminate|].
  destruct (pending w) as [|l ls] eqn:P.
  - rewrite (parse_sdist_loop_nil _ _ P) in H. discriminate.
  - destruct (str_eqb l package_header) eqn:Eh.
    + apply str_eqb_eq in Eh. subst l.
      rewrite (parse_sdist_loop_header _ _ _ P) in H.
      injection H as <-. exists ls. exact P.
    + destruct (re_match sdist_property l) as [gs|] eqn:Es.
      * rewrite (parse_sdist_loop_found _ _ _ _ _ P Es) in H. discriminate.
      * assert (Hl : no_sdist l = true).
        { unfold no_sdist, matches. rewrite Eh, Es. reflexivity. }
        rewrite (parse_sdist_loop_skip _ _ _ _ P Hl) in H.
        exact (IH _ H).
Qed.

Lemma drop_while_not_header_boundary (ls : list str) :
  at_boundary (drop_while not_header ls).
Proof.
  pose proof (drop_while_head not_header ls) as H.
  destruct (drop_while not_header ls) as [|l more]; [left; reflexivity|].
  right. exists more. f_equal.
  unfold not_header in H. apply negb_false_iff in H.
  apply str_eqb_eq. exact H.
Qed.

(** The closing loop on any pending lines: it consumes the lines in front
    of the next header, or all of them when there is none. *)
Lemma skip_rest_spec (w : World) :
  skip_rest w =
  (Ret tt, consume (length (take_while not_header (pending w))) w).
Proof.
  apply (skip_rest_run _ (drop_while not_header (pending w))).
  - symmetry. apply take_drop_while.
  - apply take_while_all.
  - apply drop_while_not_header_boundary.
Qed.

(** C7.  Once the name scan and the sdist scan of a record have returned,
    with or without a descriptor, [parse_dependency_details] returns
    normally; between the end of the sdist scan and its return exactly the
    lines in front of the next package header are consumed (none when the
    scan stopped at a header), nothing but the block of a captured
    descriptor is written, and the outer loop resumes in front of a
    package header or at the end of the input. *)
Theorem record_tail_is_skipped
        (w w1 w2 : World) (name : str) (sdist : option (str * str)) :
  parse_name w = (Ret name, w1) ->
  parse_sdist w1 = (Ret sdist, w2) ->
  exists w3,
    parse_dependency_details w = (Ret tt, w3)
    /\ pending w3 = drop_while not_header (pending w2)
    /\ at_boundary (pending w3)
    /\ sys_stdout w3 =
       sys_stdout w2
       ++ match sdist with
          | Some (url, hex) => resource_block name url hex
          | None => []
          end.
Proof.
  intros Hn Hs. unfold parse_dependency_details.
  step_with Hn. step_with Hs.
  destruct sdist as [[url hex]|].
  - match goal with |- context [print ?s] => set (text := s) end.
    unfold bind at 1. cbn [print]. set (w2' := mkWorld _ _ _).
    rewrite (skip_rest_spec w2').
    change (pending w2') with (pending w2).
    eexists. split; [reflexivity|].
    assert (Hp : pending (consume (length (take_while not_header (pending w2)))
                                  w2') =
                 drop_while not_header (pending w2)).
    { apply consume_pending.
      change (pending w2') with (pending w2).
      symmetry. apply take_drop_while. }
    rewrite Hp. split; [reflexivity|].
    split; [apply drop_while_not_header_boundary|].
    rewrite consume_stdout. unfold w2', text, resource_block.
    cbn [sys_stdout]. repeat rewrite <- app_assoc. reflexivity.
  - exists w2. split; [reflexivity|].
    destruct (parse_sdist_loop_none_boundary _ _ _ Hs) as [more Hm].
    rewrite Hm. cbn [drop_while]. rewrite app_nil_r.
    repeat split. right. exists more. reflexivity.
Qed.

Lemma record_tail_is_skipped_witness :
  let w := refill (start [] manifest_with_tail) in
  let w1 := snd (parse_name w) in
  let w2 := snd (parse_sdist w1) in
  parse_name w = (Ret (lit "a"), w1)
  /\ parse_sdist w1 = (Ret (Some (lit "u", lit "h")), w2)
  /\ exists w3,
       parse_dependency_details w = (Ret tt, w3)
       /\ pending w3 = drop_while not_header (pending w2)
       /\ at_boundary (pending w3)
       /\ sys_stdout w3 =
          sys_stdout w2 ++ resource_block (lit "a") (lit "u") (lit "h").
Proof.
  intros w w1 w2.
  assert (Hn : parse_name w = (Ret (lit "a"), w1))
    by (vm_compute; reflexivity).
  assert (Hs : parse_sdist w1 = (Ret (Some (lit "u", lit "h")), w2))
    by (vm_compute; reflexivity).
  split; [exact Hn|]. split; [exact Hs|].
  exact (record_tail_is_skipped w w1 w2 _ _ Hn Hs).
Defined.

(** ** Termination: no loop runs out of fuel *)

Lemma settles_bind {A B} (m : M A) (f : A -> M B) (w : World) :
  settles (m w) w ->
  (forall a w1, m w = (Ret a, w1) -> settles (f a w1) w1) ->
  settles (bind m f w) w.
Proof.
  unfold settles, bind. intros [Hd Hl] Hf.
  destruct (m w) as [[a| e |] w1]; cbn [fst snd] in *.
  - destruct (Hf a w1 eq_refl) as [Hd' Hl']. split; [exact Hd' | lia].
  - split; [discriminate | exact Hl].
  - contradiction.
Qed.

Lemma settles_refill {A} (r : result A * World) (w : World) l ls :
  pending w = l :: ls -> settles r (refill w) -> settles r w.
Proof.
  unfold settles. intros P [Hd Hl]. rewrite (pending_tail _ _ _ P) in Hl.
  rewrite P. simpl. split; [exact Hd | lia].
Qed.

Lemma settles_here {A} (r : result A) (w : World) :
  r <> Diverge -> settles (r, w) w.
Proof. unfold settles. cbn [fst snd]. auto. Qed.

Lemma settles_print (s : str) (w : World) : settles (print s w) w.
Proof.
  unfold settles. rewrite print_pending. split; [discriminate | lia].
Qed.

Lemma skip_initial_fields_loop_settles (fuel : nat) (w : World) :
  length (pending w) < fuel -> settles (skip_initial_fields_loop fuel w) w.
Proof.
  revert w; induction fuel as [|fuel IH]; intros w H; [lia|].
  destruct (pending w) as [|l ls] eqn:P.
  - rewrite (skip_initial_fields_loop_nil _ _ P).
    apply settles_here. discriminate.
  - destruct (initial_line l) eqn:E.
    + rewrite (skip_initial_fields_loop_skip _ _ _ _ P E).
      apply (settles_refill _ _ _ _ P). apply IH.
      rewrite (pending_tail _ _ _ P). simpl in H. lia.
    + rewrite (skip_initial_fields_loop_stop _ _ _ _ P E).
      apply settles_here. discriminate.
Qed.

Lemma parse_name_loop_settles (fuel : nat) (w : World) :
  length (pending w) < fuel -> settles (parse_name_loop fuel w) w.
Proof.
  revert w; induction fuel as [|fuel IH]; intros w H; [lia|].
  destruct (pending w) as [|l ls] eqn:P.
  - rewrite (parse_name_loop_nil _ _ P). apply settles_here. discriminate.
  - apply (settles_refill _ _ _ _ P).
    destruct (matches property l) eqn:Ep.
    + destruct (re_match name_property l) as [gs|] eqn:En.
      * rewrite (parse_name_loop_found _ _ _ _ _ P Ep En).
        apply settles_here. discriminate.
      * assert (Hl : other_property l = true).
        { unfold other_property, matches. rewrite En.
          fold (matches property l). rewrite Ep. reflexivity. }
        rewrite (parse_name_loop_skip _ _ _ _ P Hl). apply IH.
        rewrite (pending_tail _ _ _ P). simpl in H. lia.
    + rewrite (parse_name_loop_bad _ _ _ _ P Ep).
      apply settles_here. discriminate.
Qed.

Lemma parse_sdist_loop_settles (fuel : nat) (w : World) :
  length (pending w) < fuel -> settles (parse_sdist_loop fuel w) w.
Proof.
  revert w; induction fuel as [|fuel IH]; intros w H; [lia|].
  destruct (pending w) as [|l ls] eqn:P.
  - rewrite (parse_sdist_loop_nil _ _ P). apply settles_here. discriminate.
  - destruct (str_eqb l package_header) eqn:Eh.
    + apply str_eqb_eq in Eh. subst l.
      rewrite (parse_sdist_loop_header _ _ _ P).
      apply settles_here. discriminate.
    + apply (settles_refill _ _ _ _ P).
      destruct (re_match sdist_property l) as [gs|] eqn:Es.
      * rewrite (parse_sdist_loop_found _ _ _ _ _ P Es).
        apply settles_here. discriminate.
      * assert (Hl : no_sdist l = true).
        { unfold no_sdist, matches. rewrite Eh, Es. reflexivity. }
        rewrite (parse_sdist_loop_skip _ _ _ _ P Hl). apply IH.
        rewrite (pending_tail _ _ _ P). simpl in H. lia.
Qed.

Lemma parse_dependency_details_settles (w : World) :
  settles (parse_dependency_details w) w.
Proof.
  unfold parse_dependency_details.
  apply settles_bind;
    [apply parse_name_loop_settles, pending_bound | intros name w1 _].
  apply settles_bind;
    [apply parse_sdist_loop_settles, pending_bound | intros sdist w2 _].
  destruct sdist as [[url hex]|]; [|apply settles_here; discriminate].
  apply settles_bind; [apply settles_print | intros [] w3 _].
  rewrite skip_rest_spec. unfold settles. cbn [fst snd].
  split; [discriminate|].
  rewrite <- (take_drop_while not_header (pending w3)) at 2.
  rewrite (consume_pending _ (drop_while not_header (pending w3))).
  - rewrite length_app. lia.
  - symmetry. apply take_drop_while.
Qed.

(** A record that is parsed takes at least its header off the input. *)
Lemma parse_dependency_settles (w : World) :
  fst (parse_dependency w) <> Diverge
  /\ (forall w1, parse_dependency w = (Ret tt, w1) ->
      length (pending w1) < length (pending w)).
Proof.
  destruct (pending w) as [|l ls] eqn:P.
  - unfold parse_dependency. rewrite (bind_raise _ _ _ _ _ (next_nil _ P)).
    split; [discriminate|]. intros w1 H. discriminate.
  - destruct (str_eqb l package_header) eqn:Eh.
    + apply str_eqb_eq in Eh. subst l.
      rewrite (parse_dependency_header _ _ P).
      destruct (parse_dependency_details_settles (refill w)) as [Hd Hl].
      rewrite (pending_tail _ _ _ P) in Hl.
      split; [exact Hd|]. intros w1 E. rewrite E in Hl. simpl in *. lia.
    + assert (Hl : l <> package_header).
      { intros ->. rewrite str_eqb_refl in Eh. discriminate. }
      rewrite (parse_dependency_bad _ _ _ P Hl).
      split; [discriminate|]. intros w1 H. discriminate.
Qed.

Lemma read_lockfile_loop_settles (fuel : nat) (w : World) :
  length (pending w) < fuel -> fst (read_lockfile_loop fuel w) <> Diverge.
Proof.
  revert w; induction fuel as [|fuel IH]; intros w H; [lia|].
  destruct (pending w) as [|l ls] eqn:P.
  - rewrite (read_lockfile_loop_nil _ _ P). discriminate.
  - rewrite (read_lockfile_loop_cons _ _ _ _ P). unfold bind.
    destruct (parse_dependency_settles w) as [Hd Hl].
    destruct (parse_dependency w) as [[[]| e |] w1]; cbn [fst] in *.
    + apply IH. specialize (Hl w1 eq_refl). rewrite P in Hl. lia.
    + discriminate.
    + contradiction.
Qed.

(** The program always ends with a value or an exception. *)
Lemma main_settles (repr stdin : str) : fst (main repr stdin) <> Diverge.
Proof.
  rewrite main_start. unfold read_lockfile, bind.
  destruct (skip_initial_fields_loop_settles _ _
              (pending_bound (start repr stdin))) as [Hd _].
  fold (skip_initial_fields (start repr stdin)) in Hd.
  destruct (skip_initial_fields (start repr stdin)) as [[[]| e |] w1];
    cbn [fst] in *.
  - apply read_lockfile_loop_settles, pending_bound.
  - discriminate.
  - contradiction.
Qed.

(** ** Lines by their shape *)

(** Two texts that agree up to their first space agree on what precedes
    it. *)
Lemma first_space_unique (k1 k2 r1 r2 : str) :
  ~ In 32%N k1 -> ~ In 32%N k2 ->
  k1 ++ 32%N :: r1 = k2 ++ 32%N :: r2 -> k1 = k2.
Proof.
  revert k2; induction k1 as [|c k1 IH]; intros [|d k2] H1 H2 E;
    simpl in *.
  - reflexivity.
  - injection E as E _. exfalso. apply H2. left. symmetry. exact E.
  - injection E as E _. exfalso. apply H1. left. exact E.
  - injection E as -> E. f_equal. apply IH with (k2 := k2); tauto.
Qed.

Lemma key_has_no_space (key : str) :
  Forall (fun x => lower_or_hyphen x = true) key -> ~ In 32%N key.
Proof.
  intros H Hin. rewrite Forall_forall in H. specialize (H _ Hin).
  discriminate.
Qed.

(** A [key = value] line whose key is not [name] is a property that the
    name scan passes over. *)
Lemma key_value_other_property (c : char) (key value : str) :
  lower c = true -> Forall (fun x => lower_or_hyphen x = true) key ->
  c :: key <> lit "name" ->
  other_property (c :: key ++ lit " = " ++ value) = true.
Proof.
  intros Hc Hk Hn. unfold other_property.
  rewrite (property_matches_intro _ _ _ Hc Hk). cbn [andb].
  unfold matches, name_property. cbn [re_match].
  destruct (strip_prefix _ _) as [rest|] eqn:E; [|reflexivity].
  apply strip_prefix_inv in E. exfalso. apply Hn.
  apply (first_space_unique (c :: key) (lit "name")
           (lit "= " ++ value) (lit "= " ++ [dq] ++ rest)).
  - apply key_has_no_space. constructor; [|exact Hk].
    unfold lower_or_hyphen. rewrite Hc. reflexivity.
  - vm_compute. intuition discriminate.
  - exact E.
Qed.

(** ** The matcher and the program on sample lines *)

Example name_value_with_quote :
  re_match name_property (name_line (lit "a" ++ [dq] ++ lit "b")) =
  Some [lit "a" ++ [dq] ++ lit "b"].
Proof. reflexivity. Qed.

Example sdist_of_the_specification :
  re_match sdist_property
           (sdist_line (lit "https://x/y.tar.gz") (lit "abc123")
                       (lit "size = 10 ") []) =
  Some [lit "https://x/y.tar.gz"; lit "abc123"].
Proof. reflexivity. Qed.

Example sdist_with_md5_hash :
  re_match sdist_property
           (lit "sdist = { url = " ++ [dq] ++ lit "u" ++ [dq]
            ++ lit ", hash = " ++ [dq] ++ lit "md5:0" ++ [dq]
            ++ lit ", size = 1 }") = None.
Proof. reflexivity. Qed.

Example uppercase_key_is_no_property :
  matches property (lit "Name = x") = false.
Proof. reflexivity. Qed.

Example tab_line_is_whitespace :
  matches whitespace [9%N; 32%N] = true.
Proof. reflexivity. Qed.

Example bare_record_then_example_package :
  fst (main [] manifest_with_bare_record) = Ret tt
  /\ sys_stdout (snd (main [] manifest_with_bare_record)) =
     package_block example_package.
Proof. split; vm_compute; reflexivity. Qed.

Example truncated_manifest_outcome :
  main [] manifest_truncated =
  (Raise (ValueError (lit "Unexpected EOF while parsing sdist.")),
   mkWorld [] [] (mkReader None 3 [])).
Proof. vm_compute. reflexivity. Qed.


(** * Further properties of the code *)

(** ** What the patterns accept *)

Lemma re_match_lit_inv (p : str) (rest : pattern) (s : str) gs :
  re_match (Lit p :: rest) s = Some gs ->
  exists s', s = p ++ s' /\ re_match rest s' = Some gs.
Proof.
  cbn [re_match]. destruct (strip_prefix p s) as [s'|] eqn:E; [|discriminate].
  intros H. exists s'. split; [exact (strip_prefix_inv _ _ _ E) | exact H].
Qed.

Lemma re_match_group_inv (p : char -> bool) (rest : pattern) (s : str) gs :
  re_match (Group p :: rest) s = Some gs ->
  exists v t g,
    s = v ++ t /\ Forall (fun c => p c = true) v
    /\ re_match rest t = Some g /\ gs = v :: g.
Proof.
  cbn [re_match]. intros H. apply star_try_inv in H.
  destruct H as (v & t & -> & Hv & Hk). cbn [app] in Hk.
  destruct (re_match rest t) as [g|] eqn:E; [|discriminate].
  injection Hk as <-. exists v, t, g.
  repeat split; auto.
Qed.

Lemma re_match_star_inv (p : char -> bool) (rest : pattern) (s : str) gs :
  re_match (Star p :: rest) s = Some gs ->
  exists v t,
    s = v ++ t /\ Forall (fun c => p c = true) v
    /\ re_match rest t = Some gs.
Proof.
  cbn [re_match]. intros H. apply star_try_inv in H.
  destruct H as (v & t & -> & Hv & Hk). exists v, t.
  repeat split; auto.
Qed.

Lemma class_no_dq (v : str) : Forall (fun c => not_dq c = true) v -> ~ In dq v.
Proof.
  intros H Hin. rewrite Forall_forall in H. specialize (H _ Hin).
  discriminate.
Qed.

Lemma class_no_nl (v : str) : Forall (fun c => dot c = true) v -> ~ In nl v.
Proof.
  intros H Hin. rewrite Forall_forall in H. specialize (H _ Hin).
  discriminate.
Qed.

(** X6.  The generic property pattern accepts exactly the lines that start
    with a key (a lowercase letter, then lowercase letters and hyphens)
    followed by a space, an equals sign and a space. *)
Theorem property_accepts_key_value_lines (l : str) :
  matches property l = true <->
  exists c key value,
    l = c :: key ++ lit " = " ++ value
    /\ lower c = true /\ Forall (fun x => lower_or_hyphen x = true) key.
Proof.
  split.
  - unfold matches, property. destruct l as [|c t]; [discriminate|].
    change (re_match (Cls lower :: ?r) (c :: t))
      with (if lower c then re_match r t else None).
    destruct (lower c) eqn:Hc; [|discriminate].
    destruct (re_match _ t) as [gs|] eqn:E; [intros _|discriminate].
    apply re_match_star_inv in E. destruct E as (key & t1 & -> & Hk & E).
    apply re_match_lit_inv in E. destruct E as (value & -> & _).
    exists c, key, value. repeat split; auto.
  - intros (c & key & value & -> & Hc & Hk).
    apply property_matches_intro; assumption.
Qed.

(** X7.  The whitespace pattern accepts exactly the lines made of
    whitespace characters only, the empty line included. *)
Theorem whitespace_accepts_blank_lines (l : str) :
  matches whitespace l = true <-> Forall (fun c => space c = true) l.
Proof.
  rewrite whitespace_matches, forallb_forall, Forall_forall. reflexivity.
Qed.

(** X8.  The name pattern accepts exactly the lines [name = ] plus a value
    in double quotes (and such a line with one newline behind it); the
    value is free of newlines and is the only group. *)
Theorem name_property_accepts_name_lines (l : str) (gs : list str) :
  re_match name_property l = Some gs <->
  exists v,
    ~ In nl v /\ gs = [v] /\ (l = name_line v \/ l = name_line v ++ [nl]).
Proof.
  split.
  - unfold name_property. intros H.
    apply re_match_lit_inv in H. destruct H as (s1 & -> & H).
    apply re_match_group_inv in H.
    destruct H as (v & t & g & -> & Hv & H & ->).
    apply re_match_lit_inv in H. destruct H as (t2 & -> & H).
    cbn [re_match] in H.
    exists v. split; [exact (class_no_nl _ Hv)|].
    destruct t2 as [|c [|c' t2]]; cbn [at_eos] in H; try discriminate.
    + injection H as <-. split; [reflexivity|]. left.
      unfold name_line. rewrite <- app_assoc. reflexivity.
    + destruct (N.eqb c nl) eqn:Ec; [|discriminate].
      apply N.eqb_eq in Ec. subst c. injection H as <-.
      split; [reflexivity|]. right.
      unfold name_line. repeat rewrite <- app_assoc. reflexivity.
  - intros (v & Hv & -> & [-> | ->]); [exact (name_line_match v Hv)|].
    unfold name_property, name_line.
    rewrite (app_assoc (lit "name = ") [dq]). rewrite <- app_assoc.
    rewrite re_match_lit. cbn [re_match]. rewrite <- app_assoc.
    apply (star_try_prefix dot _ v _ []); [apply no_nl_dot, Hv|].
    reflexivity.
Qed.

Lemma sdist_match_inv (l : str) (gs : list str) :
  re_match sdist_property l = Some gs ->
  exists url hex fields trail,
    l = sdist_line url hex fields trail /\ gs = [url; hex]
    /\ ~ In dq url /\ ~ In dq hex /\ ~ In nl fields.
Proof.
  unfold sdist_property. intros H.
  apply re_match_lit_inv in H. destruct H as (s1 & -> & H).
  apply re_match_group_inv in H.
  destruct H as (url & t1 & g1 & -> & Hu & H & ->).
  apply re_match_lit_inv in H. destruct H as (s2 & -> & H).
  apply re_match_group_inv in H.
  destruct H as (hex & t2 & g2 & -> & Hh & H & ->).
  apply re_match_lit_inv in H. destruct H as (s3 & -> & H).
  apply re_match_star_inv in H. destruct H as (fields & t3 & -> & Hf & H).
  apply re_match_lit_inv in H. destruct H as (trail & -> & H).
  injection H as <-.
  exists url, hex, fields, trail.
  repeat split;
    [| exact (class_no_dq _ Hu) | exact (class_no_dq _ Hh)
     | exact (class_no_nl _ Hf)].
  unfold sdist_line, sdist_head. repeat rewrite <- app_assoc. reflexivity.
Qed.

(** X9.  The sdist pattern accepts exactly the lines of the sha256-hash
    form: url and hash free of double quotes between their quotes, a comma
    and a space after the hash, a closing brace later on the line; the two
    groups are the url and the hash. *)
Theorem sdist_property_accepts_hash_form (l : str) (gs : list str) :
  re_match sdist_property l = Some gs <->
  exists url hex fields trail,
    l = sdist_line url hex fields trail /\ gs = [url; hex]
    /\ ~ In dq url /\ ~ In dq hex /\ ~ In nl fields.
Proof.
  split; [apply sdist_match_inv|].
  intros (url & hex & fields & trail & -> & -> & Hu & Hh & Hf).
  exact (sdist_line_match _ _ _ _ Hu Hh Hf).
Qed.

(** ** The reader on any text *)

Lemma after_next_S (k : nat) (w : World) :
  after_next (S k) w = after_next k (fst (run_op OpNext w)).
Proof.
  unfold after_next. cbn [repeat run_ops].
  destruct (run_op OpNext w) as [w1 n1]. cbn [fst].
  destruct (run_ops (repeat OpNext k) w1) as [w2 n2]. reflexivity.
Qed.

Lemma after_next_pending (k : nat) (w : World) :
  pending (after_next k w) = skipn k (pending w).
Proof.
  revert w; induction k as [|k IH]; intros w; [reflexivity|].
  rewrite after_next_S, IH. cbn [run_op].
  destruct (pending w) as [|l ls] eqn:P.
  - rewrite (next_nil _ P). cbn [fst]. rewrite P. destruct k; reflexivity.
  - rewrite (next_cons _ _ _ P). cbn [fst skipn].
    rewrite (pending_tail _ _ _ P). reflexivity.
Qed.

Lemma hd_skipn {A} (k : nat) (l : list A) :
  nth_error l k = match skipn k l with [] => None | x :: _ => Some x end.
Proof.
  revert l; induction k as [|k IH]; intros [|x l]; simpl; auto.
Qed.

(** The outcome of [next] and of [peek] by the pending lines. *)
Lemma next_peek_by_pending (w : World) :
  fst (next w) =
    match pending w with
    | l :: _ => Ret l
    | [] => Raise (EOFError (lit "End of input reached"))
    end
  /\ fst (peek w) =
    match pending w with
    | l :: _ => Ret l
    | [] => Raise (EOFError (lit "Cannot peek past EOF."))
    end.
Proof.
  destruct (pending w) as [|l ls] eqn:P.
  - rewrite (next_nil _ P), (peek_nil _ P). auto.
  - rewrite (next_cons _ _ _ P), (peek_cons _ _ _ P). auto.
Qed.

Lemma lines_one (l : str) :
  ~ In nl l -> lines l = match l with [] => [] | _ :: _ => [l] end.
Proof.
  induction l as [|c l IH]; intros H; [reflexivity|]. simpl.
  destruct (N.eqb c nl) eqn:E.
  - apply N.eqb_eq in E. exfalso. apply H. left. auto.
  - rewrite IH by (intros Hin; apply H; right; exact Hin).
    destruct l; reflexivity.
Qed.

Lemma lines_unlines_app (ls : list str) (last : str) :
  Forall (fun l => ~ In nl l) ls -> ~ In nl last ->
  lines (unlines ls ++ last) =
  ls ++ match last with [] => [] | _ :: _ => [last] end.
Proof.
  intros Hls Hlast. induction Hls as [|l ls Hl _ IH].
  - exact (lines_one _ Hlast).
  - unfold unlines in *. cbn [map concat].
    repeat rewrite <- app_assoc. cbn [app].
    induction l as [|c l IHl]; simpl.
    + rewrite IH. reflexivity.
    + destruct (N.eqb c nl) eqn:E.
      * apply N.eqb_eq in E. exfalso. apply Hl. left. auto.
      * rewrite IHl by (intros H; apply Hl; right; exact H). reflexivity.
Qed.

(** X1.  Started on any text, the reader hands out the lines of the text
    in order and without their terminators: after [k] calls of [next], both
    [next] and [peek] return line [k] (counted from 0) while there is one,
    and raise [EOFError], each with its own message, once there is none. *)
Theorem reader_hands_out_lines_in_order (repr stdin : str) (k : nat) :
  fst (next (after_next k (start repr stdin))) =
    match nth_error (lines stdin) k with
    | Some l => Ret l
    | None => Raise (EOFError (lit "End of input reached"))
    end
  /\ fst (peek (after_next k (start repr stdin))) =
    match nth_error (lines stdin) k with
    | Some l => Ret l
    | None => Raise (EOFError (lit "Cannot peek past EOF."))
    end.
Proof.
  pose proof (next_peek_by_pending (after_next k (start repr stdin))) as H.
  rewrite after_next_pending, start_pending in H.
  rewrite hd_skipn. destruct (skipn k (lines stdin)); exact H.
Qed.

(** X2.  Round trip through the reader: on a text made of newline-free
    lines, each with its newline, and an optional last line without one,
    the calls of [next] return exactly these lines, in order; the newline
    of the last line makes no difference. *)
Theorem reader_returns_the_lines_written
        (repr : str) (ls : list str) (last : str) (k : nat) :
  Forall (fun l => ~ In nl l) ls -> ~ In nl last ->
  fst (next (after_next k (start repr (unlines ls ++ last)))) =
    match nth_error (ls ++ match last with [] => [] | _ :: _ => [last] end) k
    with
    | Some l => Ret l
    | None => Raise (EOFError (lit "End of input reached"))
    end.
Proof.
  intros Hls Hlast.
  destruct (next_peek_by_pending
              (after_next k (start repr (unlines ls ++ last)))) as [H _].
  rewrite after_next_pending, start_pending in H.
  rewrite (lines_unlines_app _ _ Hls Hlast) in H.
  rewrite hd_skipn.
  destruct (skipn k _); exact H.
Qed.

Lemma reader_returns_the_lines_written_witness :
  fst (next (after_next 1 (start [] (unlines [lit "a"] ++ lit "b")))) =
  Ret (lit "b").
Proof.
  apply (reader_returns_the_lines_written [] [lit "a"] (lit "b") 1).
  - repeat constructor. vm_compute. intuition discriminate.
  - vm_compute. intuition discriminate.
Defined.

Lemma run_op_at_end (o : op) (w : World) :
  has_line w = false -> run_op o w = (w, 0).
Proof.
  intros H. rewrite has_line_pending in H.
  destruct (pending w) as [|l ls] eqn:P; [|discriminate].
  destruct o; cbn [run_op]; try reflexivity.
  - rewrite (peek_nil _ P). reflexivity.
  - rewrite (next_nil _ P). reflexivity.
Qed.

(** X3.  The end of the input is final: once [has_next] is false, [next]
    and [peek] raise [EOFError] and change nothing, and no sequence of
    reader operations changes the reader again, so [has_next] stays
    false. *)
Theorem end_of_input_is_final (w : World) (os : list op) :
  has_line w = false ->
  next w = (Raise (EOFError (lit "End of input reached")), w)
  /\ peek w = (Raise (EOFError (lit "Cannot peek past EOF.")), w)
  /\ run_ops os w = (w, 0).
Proof.
  intros H. pose proof H as P. rewrite has_line_pending in P.
  destruct (pending w) as [|l ls] eqn:E; [|discriminate].
  split; [exact (next_nil _ E)|]. split; [exact (peek_nil _ E)|].
  induction os as [|o os IH]; [reflexivity|].
  cbn [run_ops]. rewrite (run_op_at_end _ _ H), IH. reflexivity.
Qed.

Lemma end_of_input_is_final_witness :
  next (start [] []) =
    (Raise (EOFError (lit "End of input reached")), start [] [])
  /\ peek (start [] []) =
    (Raise (EOFError (lit "Cannot peek past EOF.")), start [] [])
  /\ run_ops [OpNext; OpPeek; OpHasNext] (start [] []) = (start [] [], 0).
Proof.
  apply (end_of_input_is_final (start [] []) [OpNext; OpPeek; OpHasNext]).
  reflexivity.
Defined.

(** X4.  [peek] is the lookahead of [next]: where [peek] returns a line it
    leaves the world as it was, [has_next] is true there, and [next]
    returns the same line. *)
Theorem peek_shows_what_next_returns (w : World) (l : str) :
  fst (peek w) = Ret l ->
  snd (peek w) = w /\ has_line w = true /\ fst (next w) = Ret l.
Proof.
  intros H. split; [apply peek_world|].
  rewrite has_line_pending.
  destruct (pending w) as [|l' ls] eqn:P.
  - rewrite (peek_nil _ P) in H. discriminate.
  - rewrite (peek_cons _ _ _ P) in H. rewrite (next_cons _ _ _ P).
    split; [reflexivity | exact H].
Qed.

Lemma peek_shows_what_next_returns_witness :
  snd (peek (start [] example_manifest)) = start [] example_manifest
  /\ has_line (start [] example_manifest) = true
  /\ fst (next (start [] example_manifest)) = Ret package_header.
Proof.
  apply (peek_shows_what_next_returns (start [] example_manifest)
           package_header).
  vm_compute. reflexivity.
Defined.

(** ** The scans on any pending lines *)

(** X5.  [skip_initial_fields] never fails and never writes: on any
    pending lines it returns normally, having consumed exactly the blank
    and property lines in front of the first line that is neither. *)
Theorem skip_initial_fields_stops_at_first_other_line (w : World) :
  exists w',
    skip_initial_fields w = (Ret tt, w')
    /\ pending w' = drop_while initial_line (pending w)
    /\ sys_stdout w' = sys_stdout w.
Proof.
  pose proof (take_drop_while initial_line (pending w)) as Hs.
  exists (consume (length (take_while initial_line (pending w))) w).
  split; [|split].
  - apply (skip_initial_fields_run _ (drop_while initial_line (pending w))).
    + symmetry. exact Hs.
    + apply take_while_all.
    + apply drop_while_head.
  - apply consume_pending. symmetry. exact Hs.
  - apply consume_stdout.
Qed.

Lemma name_match_is_property (l : str) (gs : list str) :
  re_match name_property l = Some gs -> matches property l = true.
Proof.
  unfold name_property. intros H.
  apply re_match_lit_inv in H. destruct H as (s1 & -> & _).
  change ((lit "name = " ++ [dq]) ++ s1)
    with (110%N :: lit "ame" ++ lit " = " ++ (dq :: s1)).
  apply property_matches_intro; [reflexivity|].
  repeat constructor.
Qed.

(** The three ways the name scan ends. *)
Lemma parse_name_cases (w : World) :
  let pre := take_while other_property (pending w) in
  let rest := drop_while other_property (pending w) in
  (rest = []
   /\ parse_name w =
      (Raise (ValueError (lit "Unexpected while parsing name.")),
       consume (length pre) w))
  \/ (exists l rest',
        rest = l :: rest' /\ matches property l = false
        /\ parse_name w =
           (Raise (ValueError
                     (expected_property_message l (self_repr (reader w)))),
            consume (S (length pre)) w))
  \/ (exists l rest' gs,
        rest = l :: rest' /\ re_match name_property l = Some gs
        /\ parse_name w =
           (Ret (replace hyphen underscore (group 1 gs)),
            consume (S (length pre)) w)).
Proof.
  intros pre rest.
  pose proof (take_drop_while other_property (pending w)) as Hs.
  pose proof (take_while_all other_property (pending w)) as Hp.
  pose proof (drop_while_head other_property (pending w)) as Hh.
  fold pre in Hs, Hp. fold rest in Hs, Hh. symmetry in Hs.
  destruct rest as [|l rest'] eqn:R.
  - left. split; [reflexivity|]. rewrite app_nil_r in Hs.
    exact (parse_name_eof _ _ Hs Hp).
  - right. destruct (matches property l) eqn:Ep.
    + right. unfold other_property in Hh. rewrite Ep in Hh.
      cbn [andb] in Hh. apply negb_false_iff in Hh. unfold matches in Hh.
      destruct (re_match name_property l) as [gs|] eqn:En; [|discriminate].
      exists l, rest', gs. split; [reflexivity|]. split; [exact En|].
      unfold parse_name.
      destruct (lines_bound_split _ _ _ Hs) as [fuel ->].
      rewrite (parse_name_loop_skips _ _ _ _ Hs Hp).
      rewrite (parse_name_loop_found _ _ _ _ _ (consume_pending _ _ _ Hs)
                 Ep En).
      rewrite consume_S. reflexivity.
    + left. exists l, rest'. split; [reflexivity|]. split; [exact Ep|].
      exact (parse_name_bad _ _ _ _ Hs Hp Ep).
Qed.

(** The three ways the sdist scan ends. *)
Lemma parse_sdist_cases (w : World) :
  let pre := take_while no_sdist (pending w) in
  let rest := drop_while no_sdist (pending w) in
  (rest = []
   /\ parse_sdist w =
      (Raise (ValueError (lit "Unexpected EOF while parsing sdist.")),
       consume (length pre) w))
  \/ (exists rest',
        rest = package_header :: rest'
        /\ parse_sdist w = (Ret None, consume (length pre) w))
  \/ (exists l rest' gs,
        rest = l :: rest' /\ re_match sdist_property l = Some gs
        /\ parse_sdist w =
           (Ret (Some (group 1 gs, group 2 gs)), consume (S (length pre)) w)).
Proof.
  intros pre rest.
  pose proof (take_drop_while no_sdist (pending w)) as Hs.
  pose proof (take_while_all no_sdist (pending w)) as Hp.
  pose proof (drop_while_head no_sdist (pending w)) as Hh.
  fold pre in Hs, Hp. fold rest in Hs, Hh. symmetry in Hs.
  destruct rest as [|l rest'] eqn:R.
  - left. split; [reflexivity|]. rewrite app_nil_r in Hs.
    exact (parse_sdist_eof _ _ Hs Hp).
  - right. destruct (str_eqb l package_header) eqn:Eh.
    + left. apply str_eqb_eq in Eh. subst l. exists rest'.
      split; [reflexivity|]. exact (parse_sdist_header _ _ _ Hs Hp).
    + right. unfold no_sdist in Hh. rewrite Eh in Hh.
      cbn [negb andb] in Hh. apply negb_false_iff in Hh.
      unfold matches in Hh.
      destruct (re_match sdist_property l) as [gs|] eqn:Es; [|discriminate].
      exists l, rest', gs. split; [reflexivity|]. split; [exact Es|].
      exact (parse_sdist_found _ _ _ _ _ Hs Hp Es).
Qed.

Lemma replace_no_hyphen (s : str) : ~ In hyphen (replace hyphen underscore s).
Proof.
  unfold replace. intros H. apply in_map_iff in H.
  destruct H as (c & Hc & _).
  destruct (N.eqb c hyphen) eqn:E; [discriminate|].
  apply N.eqb_neq in E. congruence.
Qed.

Lemma name_match_group (l : str) (gs : list str) :
  re_match name_property l = Some gs -> gs = [group 1 gs].
Proof.
  unfold name_property. intros H.
  apply re_match_lit_inv in H. destruct H as (s1 & -> & H).
  apply re_match_group_inv in H. destruct H as (v & t & g & -> & _ & H & ->).
  apply re_match_lit_inv in H. destruct H as (t2 & -> & H).
  cbn [re_match] in H. destruct (at_eos t2); [|discriminate].
  injection H as <-. reflexivity.
Qed.

(** X10.  What a returned name is: when [parse_name] returns, the pending
    lines began with properties other than the name, then a line that the
    name pattern matches with some value [v]; the result is [v] with every
    hyphen replaced by an underscore, so it holds no hyphen; exactly the
    lines up to and including the name line are consumed and nothing is
    written. *)
Theorem parse_name_returns_the_first_name
        (w w' : World) (name : str) :
  parse_name w = (Ret name, w') ->
  exists pre l v rest,
    pending w = pre ++ l :: rest
    /\ forallb other_property pre = true
    /\ re_match name_property l = Some [v]
    /\ name = replace hyphen underscore v
    /\ ~ In hyphen name
    /\ pending w' = rest
    /\ sys_stdout w' = sys_stdout w.
Proof.
  intros H.
  pose proof (take_drop_while other_property (pending w)) as Hs.
  pose proof (take_while_all other_property (pending w)) as Hp.
  destruct (parse_name_cases w) as [[_ E] | [(l & r & _ & _ & E)
                                            | (l & r & gs & R & En & E)]];
    rewrite E in H; try discriminate.
  injection H as <- <-. rewrite R in Hs. symmetry in Hs.
  exists (take_while other_property (pending w)), l, (group 1 gs), r.
  split; [exact Hs|]. split; [exact Hp|].
  split; [rewrite En; f_equal; exact (name_match_group _ _ En)|].
  split; [reflexivity|]. split; [apply replace_no_hyphen|].
  split; [exact (consume_pending_cons _ _ _ _ Hs)
         | exact (consume_stdout (S _) w)].
Qed.

Lemma parse_name_returns_the_first_name_witness :
  exists pre l v rest,
    pending (refill (start [] example_manifest)) = pre ++ l :: rest
    /\ forallb other_property pre = true
    /\ re_match name_property l = Some [v]
    /\ lit "foo_bar" = replace hyphen underscore v
    /\ ~ In hyphen (lit "foo_bar")
    /\ pending (consume 1 (refill (start [] example_manifest))) = rest
    /\ sys_stdout (consume 1 (refill (start [] example_manifest))) =
       sys_stdout (refill (start [] example_manifest)).
Proof.
  apply (parse_name_returns_the_first_name
           (refill (start [] example_manifest))
           (consume 1 (refill (start [] example_manifest)))
           (lit "foo_bar")).
  vm_compute. reflexivity.
Defined.

(** X11.  A record without a name is fatal: when no pending line matches
    the name pattern, [parse_name] raises [ValueError], whatever the lines
    are, and writes nothing. *)
Theorem parse_name_needs_a_name_line (w : World) :
  (forall l, In l (pending w) -> re_match name_property l = None) ->
  (exists msg, fst (parse_name w) = Raise (ValueError msg))
  /\ sys_stdout (snd (parse_name w)) = sys_stdout w.
Proof.
  intros Hno.
  pose proof (take_drop_while other_property (pending w)) as Hs.
  destruct (parse_name_cases w) as [[_ E] | [(l & r & _ & _ & E)
                                            | (l & r & gs & R & En & E)]];
    rewrite E; cbn [fst snd].
  - split; [eexists; reflexivity | apply consume_stdout].
  - split; [eexists; reflexivity | exact (consume_stdout (S _) w)].
  - exfalso. rewrite R in Hs.
    assert (Hin : In l (pending w)).
    { rewrite <- Hs. apply in_or_app. right. left. reflexivity. }
    rewrite (Hno _ Hin) in En. discriminate.
Qed.

Lemma parse_name_needs_a_name_line_witness :
  (exists msg,
      fst (parse_name (start [] (unlines [lit "version = 1"]))) =
      Raise (ValueError msg))
  /\ sys_stdout (snd (parse_name (start [] (unlines [lit "version = 1"])))) =
     sys_stdout (start [] (unlines [lit "version = 1"])).
Proof.
  apply (parse_name_needs_a_name_line (start [] (unlines [lit "version = 1"]))).
  intros l H. vm_compute in H. destruct H as [<- | []]. reflexivity.
Defined.

(** X12.  What a captured descriptor is: when [parse_sdist] returns a
    pair, the pending lines began with lines that are neither a package
    header nor of the hash form, then an sdist line of the hash form whose
    url and hash are the pair, as written and free of double quotes;
    exactly the lines up to and including that one are consumed and
    nothing is written. *)
Theorem parse_sdist_captures_the_first_hash_form_line
        (w w' : World) (url hex : str) :
  parse_sdist w = (Ret (Some (url, hex)), w') ->
  exists pre fields trail rest,
    pending w = pre ++ sdist_line url hex fields trail :: rest
    /\ forallb no_sdist pre = true
    /\ ~ In dq url /\ ~ In dq hex
    /\ pending w' = rest
    /\ sys_stdout w' = sys_stdout w.
Proof.
  intros H.
  pose proof (take_drop_while no_sdist (pending w)) as Hs.
  pose proof (take_while_all no_sdist (pending w)) as Hp.
  destruct (parse_sdist_cases w) as [[_ E] | [(r & _ & E)
                                             | (l & r & gs & R & Es & E)]];
    rewrite E in H; try discriminate.
  destruct (sdist_match_inv _ _ Es)
    as (u & h & fields & trail & -> & -> & Hu & Hh & _).
  cbn [group Nat.sub nth] in H. injection H as <- <- <-.
  rewrite R in Hs. symmetry in Hs.
  exists (take_while no_sdist (pending w)), fields, trail, r.
  split; [exact Hs|]. split; [exact Hp|]. split; [exact Hu|].
  split; [exact Hh|].
  split; [exact (consume_pending_cons _ _ _ _ Hs)
         | exact (consume_stdout (S _) w)].
Qed.

Lemma parse_sdist_captures_the_first_hash_form_line_witness :
  exists pre fields trail rest,
    pending (consume 2 (start [] example_manifest)) =
      pre ++ sdist_line (lit "https://x/y.tar.gz") (lit "abc123") fields trail
      :: rest
    /\ forallb no_sdist pre = true
    /\ ~ In dq (lit "https://x/y.tar.gz") /\ ~ In dq (lit "abc123")
    /\ pending (consume 3 (start [] example_manifest)) = rest
    /\ sys_stdout (consume 3 (start [] example_manifest)) =
       sys_stdout (consume 2 (start [] example_manifest)).
Proof.
  apply (parse_sdist_captures_the_first_hash_form_line
           (consume 2 (start [] example_manifest))
           (consume 3 (start [] example_manifest))).
  vm_compute. reflexivity.
Defined.

(** X13.  When [parse_sdist] returns [None], it stands in front of a
    package header: the lines before it were neither a header nor of the
    hash form and are consumed, the header is still pending, and nothing
    is written. *)
Theorem parse_sdist_stops_in_front_of_a_header (w w' : World) :
  parse_sdist w = (Ret None, w') ->
  exists pre rest,
    pending w = pre ++ package_header :: rest
    /\ forallb no_sdist pre = true
    /\ pending w' = package_header :: rest
    /\ sys_stdout w' = sys_stdout w.
Proof.
  intros H.
  pose proof (take_drop_while no_sdist (pending w)) as Hs.
  pose proof (take_while_all no_sdist (pending w)) as Hp.
  destruct (parse_sdist_cases w) as [[_ E] | [(r & R & E)
                                             | (l & r & gs & _ & _ & E)]];
    rewrite E in H; try discriminate.
  injection H as <-. rewrite R in Hs. symmetry in Hs.
  exists (take_while no_sdist (pending w)), r.
  split; [exact Hs|]. split; [exact Hp|].
  split; [exact (consume_pending _ _ _ Hs) | apply consume_stdout].
Qed.

Lemma parse_sdist_stops_in_front_of_a_header_witness :
  exists pre rest,
    pending (consume 3 (start [] manifest_sdist_first)) =
      pre ++ package_header :: rest
    /\ forallb no_sdist pre = true
    /\ pending (consume 4 (start [] manifest_sdist_first)) =
       package_header :: rest
    /\ sys_stdout (consume 4 (start [] manifest_sdist_first)) =
       sys_stdout (consume 3 (start [] manifest_sdist_first)).
Proof.
  apply (parse_sdist_stops_in_front_of_a_header
           (consume 3 (start [] manifest_sdist_first))
           (consume 4 (start [] manifest_sdist_first))).
  vm_compute. reflexivity.
Defined.

(** X14.  The name scan rejects every line that is no property, a package
    header included: such a line met before the name line makes
    [parse_name] raise [ValueError] with a message that quotes the line;
    the message is the same wherever in the input the line stands. *)
Theorem parse_name_rejects_any_non_property
        (w : World) (pre rest : list str) (l : str) :
  pending w = pre ++ l :: rest ->
  forallb other_property pre = true ->
  matches property l = false ->
  fst (parse_name w) =
    Raise (ValueError (expected_property_message l (self_repr (reader w))))
  /\ sys_stdout (snd (parse_name w)) = sys_stdout w.
Proof.
  intros H Hp Hl. rewrite (parse_name_bad _ _ _ _ H Hp Hl). cbn [fst snd].
  split; [reflexivity | exact (consume_stdout (S _) w)].
Qed.

Lemma parse_name_rejects_any_non_property_witness :
  fst (parse_name (refill (start [] manifest_two_headers))) =
    Raise (ValueError (expected_property_message package_header []))
  /\ sys_stdout (snd (parse_name (refill (start [] manifest_two_headers)))) =
     sys_stdout (refill (start [] manifest_two_headers)).
Proof.
  apply (parse_name_rejects_any_non_property
           (refill (start [] manifest_two_headers))
           [] [name_line (lit "a")] package_header).
  - vm_compute. reflexivity.
  - reflexivity.
  - reflexivity.
Defined.

(** ** What a record and a run may write *)

Lemma print_then_skip_rest (s : str) (w : World) :
  (print s ;;; skip_rest) w =
  (Ret tt,
   consume (length (take_while not_header (pending w))) (snd (print s w))).
Proof.
  unfold bind. cbn [print]. rewrite skip_rest_spec. reflexivity.
Qed.

(** What [parse_dependency_details] does on any pending lines: it returns
    or raises [ValueError], and it writes one clean block when it returns
    with a descriptor and nothing otherwise. *)
Lemma parse_dependency_details_summary (w : World) :
  value_or_value_error (fst (parse_dependency_details w))
  /\ exists ds,
       Forall clean_descriptor ds /\ length ds <= 1
       /\ sys_stdout (snd (parse_dependency_details w)) =
          sys_stdout w ++ concat (map descriptor_block ds)
       /\ (ds <> [] -> fst (parse_dependency_details w) = Ret tt).
Proof.
  assert (quiet : forall r w', sys_stdout w' = sys_stdout w ->
            value_or_value_error r -> r <> Ret tt \/ True ->
            value_or_value_error r
            /\ exists ds,
                 Forall clean_descriptor ds /\ length ds <= 1
                 /\ sys_stdout w' =
                    sys_stdout w ++ concat (map descriptor_block ds)
                 /\ (ds <> [] -> r = Ret tt)).
  { intros r w' Ho Hr _. split; [exact Hr|]. exists [].
    rewrite Ho, app_nil_r. repeat split; auto. congruence. }
  unfold parse_dependency_details.
  destruct (parse_name_cases w) as [[_ E] | [(l & r & _ & _ & E)
                                            | (l & r & gs & _ & _ & E)]].
  - rewrite (bind_raise _ _ _ _ _ E). cbn [fst snd].
    apply quiet; [apply consume_stdout | exact I | auto].
  - rewrite (bind_raise _ _ _ _ _ E). cbn [fst snd].
    apply quiet; [exact (consume_stdout (S _) w) | exact I | auto].
  - rewrite (bind_ret _ _ _ _ _ E). cbn beta.
    set (w1 := consume _ w).
    assert (H1 : sys_stdout w1 = sys_stdout w)
      by exact (consume_stdout (S _) w).
    destruct (parse_sdist_cases w1) as [[_ E2] | [(r2 & _ & E2)
                                       | (l2 & r2 & gs2 & _ & Es & E2)]].
    + rewrite (bind_raise _ _ _ _ _ E2). cbn [fst snd].
      apply quiet;
        [transitivity (sys_stdout w1); [apply consume_stdout | exact H1]
        | exact I | auto].
    + rewrite (bind_ret _ _ _ _ _ E2). cbn beta iota. cbn [ret fst snd].
      apply quiet;
        [transitivity (sys_stdout w1); [apply consume_stdout | exact H1]
        | exact I | auto].
    + rewrite (bind_ret _ _ _ _ _ E2). cbn beta iota.
      destruct (sdist_match_inv _ _ Es)
        as (u & h & fields & trail & _ & -> & Hu & Hh & _).
      cbn [group Nat.sub nth].
      rewrite print_then_skip_rest. cbn [fst snd].
      split; [exact I|].
      exists [(replace hyphen underscore (group 1 gs), u, h)].
      split; [|split; [|split]].
      * constructor; [|constructor].
        split; [apply replace_no_hyphen | split; assumption].
      * simpl. lia.
      * rewrite consume_stdout. cbn [print snd sys_stdout].
        rewrite (consume_stdout (S _) w1), H1.
        cbn [map concat descriptor_block]. rewrite app_nil_r.
        unfold resource_block. repeat rewrite <- app_assoc.
        reflexivity.
      * reflexivity.
Qed.

(** The same for [parse_dependency] in front of at least one line. *)
Lemma parse_dependency_summary (w : World) :
  pending w <> [] ->
  value_or_value_error (fst (parse_dependency w))
  /\ exists ds,
       Forall clean_descriptor ds /\ length ds <= 1
       /\ sys_stdout (snd (parse_dependency w)) =
          sys_stdout w ++ concat (map descriptor_block ds)
       /\ (ds <> [] -> fst (parse_dependency w) = Ret tt).
Proof.
  intros Hne. destruct (pending w) as [|l ls] eqn:P; [congruence|].
  destruct (str_eqb l package_header) eqn:Eh.
  - apply str_eqb_eq in Eh. subst l.
    rewrite (parse_dependency_header _ _ P).
    destruct (parse_dependency_details_summary (refill w))
      as (Hv & ds & Hc & Hl & Ho & Hr).
    split; [exact Hv|]. exists ds. rewrite refill_stdout in Ho. auto.
  - assert (Hl : l <> package_header).
    { intros ->. rewrite str_eqb_refl in Eh. discriminate. }
    rewrite (parse_dependency_bad _ _ _ P Hl). cbn [fst snd].
    split; [exact I|]. exists [].
    rewrite refill_stdout, app_nil_r. repeat split; auto. congruence.
Qed.

(** X15.  One record writes at most one block, and only when it succeeds:
    after [parse_dependency], standard output is either what it was, or
    what it was followed by one resource block whose name holds no hyphen
    and whose url and hash hold no double quote, and in that case
    [parse_dependency] has returned normally.  A record that fails leaves
    no partial output. *)
Theorem parse_dependency_writes_at_most_one_block (w : World) :
  sys_stdout (snd (parse_dependency w)) = sys_stdout w
  \/ (fst (parse_dependency w) = Ret tt
      /\ exists name url hex,
           ~ In hyphen name /\ ~ In dq url /\ ~ In dq hex
           /\ sys_stdout (snd (parse_dependency w)) =
              sys_stdout w ++ resource_block name url hex).
Proof.
  destruct (pending w) as [|l ls] eqn:P.
  - left. unfold parse_dependency.
    rewrite (bind_raise _ _ _ _ _ (next_nil _ P)). reflexivity.
  - destruct (parse_dependency_summary w) as (_ & ds & Hc & Hl & Ho & Hr);
      [rewrite P; discriminate|].
    destruct ds as [|[[name url] hex] [|d ds]]; [| |simpl in Hl; lia].
    + left. rewrite Ho. cbn [map concat]. apply app_nil_r.
    + right. split; [apply Hr; discriminate|].
      inversion Hc as [|? ? Hd _]; subst. destruct Hd as (Hn & Hu & Hh).
      exists name, url, hex. rewrite Ho. cbn [map concat descriptor_block].
      rewrite app_nil_r. auto.
Qed.

Lemma skip_initial_fields_spec (w : World) :
  skip_initial_fields w =
  (Ret tt, consume (length (take_while initial_line (pending w))) w).
Proof.
  apply (skip_initial_fields_run _ (drop_while initial_line (pending w))).
  - symmetry. apply take_drop_while.
  - apply take_while_all.
  - apply drop_while_head.
Qed.

Lemma read_lockfile_loop_blocks (fuel : nat) (w : World) :
  exists ds,
    Forall clean_descriptor ds
    /\ sys_stdout (snd (read_lockfile_loop fuel w)) =
       sys_stdout w ++ concat (map descriptor_block ds).
Proof.
  revert w; induction fuel as [|fuel IH]; intros w.
  - exists []. rewrite app_nil_r. auto.
  - destruct (pending w) as [|l ls] eqn:P.
    + rewrite (read_lockfile_loop_nil _ _ P). exists [].
      rewrite app_nil_r. auto.
    + rewrite (read_lockfile_loop_cons _ _ _ _ P).
      destruct (parse_dependency_summary w) as (_ & ds & Hc & _ & Ho & _);
        [rewrite P; discriminate|].
      unfold bind. destruct (parse_dependency w) as [[[]| e |] w1];
        cbn [fst snd] in *.
      * destruct (IH w1) as (ds' & Hc' & Ho'). exists (ds ++ ds').
        split; [apply Forall_app; auto|].
        rewrite Ho', Ho, map_app, concat_app, app_assoc. reflexivity.
      * exists ds. auto.
      * exists ds. auto.
Qed.

(** X16.  Whatever the input, and whether the run ends normally or with an
    error, standard output is a sequence of complete resource blocks, each
    with a name free of hyphens and a url and a hash free of double
    quotes: nothing else is ever written, and no block is left
    unfinished. *)
Theorem main_writes_only_blocks (repr stdin : str) :
  exists ds,
    Forall clean_descriptor ds
    /\ sys_stdout (snd (main repr stdin)) = concat (map descriptor_block ds).
Proof.
  rewrite main_start. unfold read_lockfile.
  rewrite (bind_ret _ _ _ _ _ (skip_initial_fields_spec _)).
  set (w1 := consume _ _).
  destruct (read_lockfile_loop_blocks (lines_bound w1) w1) as (ds & Hc & Ho).
  exists ds. split; [exact Hc|].
  rewrite Ho. unfold w1. rewrite consume_stdout, start_stdout. reflexivity.
Qed.

(** ** How a run can end *)

Lemma read_lockfile_loop_outcome (fuel : nat) (w : World) :
  length (pending w) < fuel ->
  value_or_value_error (fst (read_lockfile_loop fuel w)).
Proof.
  revert w; induction fuel as [|fuel IH]; intros w H; [lia|].
  destruct (pending w) as [|l ls] eqn:P.
  - rewrite (read_lockfile_loop_nil _ _ P). exact I.
  - rewrite (read_lockfile_loop_cons _ _ _ _ P). unfold bind.
    destruct (parse_dependency_summary w) as (Hv & _);
      [rewrite P; discriminate|].
    destruct (parse_dependency_settles w) as [_ Hl].
    destruct (parse_dependency w) as [[[]| e |] w1]; cbn [fst] in *.
    + apply IH. specialize (Hl w1 eq_refl). rewrite P in Hl. lia.
    + exact Hv.
    + exact Hv.
Qed.

(** X17.  On every input [main] comes to an end, and it ends in one of two
    ways only: a normal return or a [ValueError].  The loops never spin,
    and the walker never drives the reader past the end of the input: the
    [EOFError] of [next] and [peek] and the assertions are never raised. *)
Theorem main_returns_or_raises_value_error (repr stdin : str) :
  value_or_value_error (fst (main repr stdin)).
Proof.
  rewrite main_start. unfold read_lockfile.
  rewrite (bind_ret _ _ _ _ _ (skip_initial_fields_spec _)).
  apply read_lockfile_loop_outcome, pending_bound.
Qed.

(** The outer loop over well-formed packages that lead the pending
    lines. *)
Lemma read_lockfile_loop_prefix (ps : list package) (rest : list str) :
  at_boundary rest ->
  forallb well_formed ps = true ->
  forall w,
    pending w = concat (map package_lines ps) ++ rest ->
    Forall (fun l => ~ In nl l) (pending w) ->
    exists w',
      pending w' = rest
      /\ sys_stdout w' = sys_stdout w ++ concat (map package_block ps)
      /\ self_repr (reader w') = self_repr (reader w)
      /\ forall fuel,
           read_lockfile_loop (length ps + fuel) w =
           read_lockfile_loop fuel w'.
Proof.
  intros Hr. induction ps as [|p ps IH]; intros Hwf w H Hnl.
  - exists w. cbn [map concat app] in *. rewrite app_nil_r. auto.
  - simpl in Hwf. apply andb_true_iff in Hwf. destruct Hwf as [Hp Hwf].
    cbn [map concat] in H. rewrite <- app_assoc in H.
    assert (Hb : at_boundary (concat (map package_lines ps) ++ rest)).
    { destruct ps as [|q ps]; [exact Hr|].
      right. cbn [map concat package_lines app]. eexists. reflexivity. }
    rewrite H in Hnl. apply Forall_app in Hnl. destruct Hnl as [Hnl1 Hnl2].
    destruct (parse_dependency_package p _ w H Hnl1 Hp Hb)
      as (w1 & E & Ho & Hq & Hrepr).
    destruct (IH Hwf w1 Hq) as (w' & Hq' & Ho' & Hrepr' & Hloop);
      [rewrite Hq; exact Hnl2|].
    exists w'. split; [exact Hq'|]. split; [|split].
    + rewrite Ho', Ho. cbn [map concat]. rewrite <- app_assoc. reflexivity.
    + rewrite Hrepr', Hrepr. reflexivity.
    + intros fuel. cbn [length Nat.add].
      assert (Hc : exists l ls, pending w = l :: ls).
      { rewrite H. unfold package_lines. simpl. eauto. }
      destruct Hc as (l & ls & Hc).
      rewrite (read_lockfile_loop_cons _ _ _ _ Hc).
      rewrite (bind_ret _ _ _ _ _ E). apply Hloop.
Qed.

(** X18.  Output is streamed: when well-formed packages are followed by a
    record in which a line that is no property comes before the name,
    [main] raises the [ValueError] of the name scan, and standard output
    holds exactly the blocks of the packages in front of that record. *)
Theorem main_keeps_blocks_before_failure
        (repr stdin : str) (preamble before rest : list str)
        (ps : list package) (bad : str) :
  lines stdin =
    preamble ++ concat (map package_lines ps)
    ++ package_header :: before ++ bad :: rest ->
  forallb initial_line preamble = true ->
  forallb well_formed ps = true ->
  forallb other_property before = true ->
  matches property bad = false ->
  fst (main repr stdin) =
    Raise (ValueError (expected_property_message bad repr))
  /\ sys_stdout (snd (main repr stdin)) = concat (map package_block ps).
Proof.
  intros H Hpre Hwf Hb Hbad. rewrite main_start. unfold read_lockfile.
  pose proof (start_pending repr stdin) as H0. rewrite H in H0.
  assert (Hstop : match concat (map package_lines ps)
                        ++ package_header :: before ++ bad :: rest with
                  | [] => True
                  | l :: _ => initial_line l = false
                  end).
  { destruct ps; reflexivity. }
  rewrite (bind_ret _ _ _ _ _ (skip_initial_fields_run _ _ _ H0 Hpre Hstop)).
  set (w1 := consume (length preamble) (start repr stdin)).
  pose proof (consume_pending _ _ _ H0 : pending w1 = _) as H1.
  destruct (read_lockfile_loop_prefix ps
              (package_header :: before ++ bad :: rest)
              (or_intror (ex_intro _ _ eq_refl)) Hwf w1 H1)
    as (w2 & H2 & Ho & Hrepr & Hloop).
  { rewrite H1. pose proof (lines_no_nl stdin) as Hnl. rewrite H in Hnl.
    apply Forall_app in Hnl. tauto. }
  assert (Hf : exists fuel, lines_bound w1 = length ps + S fuel).
  { pose proof (pending_bound w1) as B. rewrite H1, length_app in B.
    pose proof (packages_length ps). cbn [length] in B.
    exists (lines_bound w1 - length ps - 1). lia. }
  destruct Hf as [fuel ->]. rewrite Hloop.
  rewrite (read_lockfile_loop_cons _ _ _ _ H2).
  assert (E : parse_dependency w2 =
              (Raise (ValueError (expected_property_message bad repr)),
               consume (S (length before)) (refill w2))).
  { rewrite (parse_dependency_header _ _ H2). unfold parse_dependency_details.
    apply bind_raise.
    rewrite (parse_name_bad _ _ _ _ (pending_tail _ _ _ H2) Hb Hbad).
    rewrite refill_repr, Hrepr. unfold w1.
    rewrite consume_repr, start_repr. reflexivity. }
  rewrite (bind_raise _ _ _ _ _ E). cbn [fst snd].
  split; [reflexivity|].
  rewrite (consume_stdout (S _)), refill_stdout, Ho. unfold w1.
  rewrite consume_stdout, start_stdout. reflexivity.
Qed.

Lemma main_keeps_blocks_before_failure_witness :
  fst (main [] manifest_good_then_bad) =
    Raise (ValueError (expected_property_message (lit "oops") []))
  /\ sys_stdout (snd (main [] manifest_good_then_bad)) =
     concat (map package_block [example_package]).
Proof.
  apply (main_keeps_blocks_before_failure [] manifest_good_then_bad
           [] [] [] [example_package] (lit "oops"));
    vm_compute; reflexivity.
Defined.

(** X19.  The line number of the header error: when the first line that
    is neither blank nor a property is not a package header, [main] raises
    [ValueError] with a message that quotes the line and gives the
    reader's count after the line was taken: the position of the line when
    it is the last one of the input, and the position of the line behind
    it otherwise.  Nothing is written. *)
Theorem header_error_gives_the_count_after_the_line
        (repr stdin : str) (preamble ls : list str) (l : str) :
  lines stdin = preamble ++ l :: ls ->
  forallb initial_line preamble = true ->
  initial_line l = false -> l <> package_header ->
  fst (main repr stdin) =
    Raise (ValueError
             (lit "Expected package header at line "
              ++ str_of_int (Z.of_nat (length preamble) + 1
                             + match ls with [] => 0 | _ :: _ => 1 end)
              ++ lit ", found '" ++ l ++ lit "'."))
  /\ sys_stdout (snd (main repr stdin)) = [].
Proof.
  intros H Hpre Hl Hh. rewrite (main_header_error _ _ _ _ _ H Hpre Hl Hh).
  cbn [fst snd]. split; [reflexivity|].
  rewrite refill_stdout, consume_stdout. apply start_stdout.
Qed.

Lemma header_error_gives_the_count_after_the_line_witness :
  fst (main [] manifest_without_header) =
    Raise (ValueError
             (lit "Expected package header at line "
              ++ str_of_int (Z.of_nat (length (@nil str)) + 1 + 1)
              ++ lit ", found '" ++ lit "garbage" ++ lit "'."))
  /\ sys_stdout (snd (main [] manifest_without_header)) = [].
Proof.
  apply (header_error_gives_the_count_after_the_line
           [] manifest_without_header [] [lit "more"] (lit "garbage")).
  - vm_compute. reflexivity.
  - reflexivity.
  - reflexivity.
  - intros H. vm_compute in H. discriminate.
Defined.

(** ** The walker only moves forward *)

Lemma advances_trans (w1 w2 w3 : World) :
  advances w1 w2 -> advances w2 w3 -> advances w1 w3.
Proof.
  induction 1 as [w | w w' l ls P _ IH | w w' s _ IH]; intros H.
  - exact H.
  - exact (advances_next _ _ _ _ P (IH H)).
  - exact (advances_print _ _ _ (IH H)).
Qed.

Lemma advances_refill (w : World) l ls :
  pending w = l :: ls -> advances w (refill w).
Proof. intros P. exact (advances_next _ _ _ _ P (advances_here _)). Qed.

Lemma advances_bind {A B} (m : M A) (f : A -> M B) (w : World) :
  advances w (snd (m w)) ->
  (forall a w1, m w = (Ret a, w1) -> advances w1 (snd (f a w1))) ->
  advances w (snd (bind m f w)).
Proof.
  unfold bind. intros Hm Hf.
  destruct (m w) as [[a| e |] w1]; cbn [snd] in *; [|exact Hm|exact Hm].
  exact (advances_trans _ _ _ Hm (Hf a w1 eq_refl)).
Qed.

Lemma advances_consume (pre rest : list str) (w : World) :
  pending w = pre ++ rest -> advances w (consume (length pre) w).
Proof.
  revert w; induction pre as [|l pre IH]; intros w H.
  - apply advances_here.
  - cbn [length consume].
    apply (advances_next _ _ _ _ H). apply IH.
    exact (pending_tail _ _ _ H).
Qed.

Lemma advances_consume_cons (pre rest : list str) (l : str) (w : World) :
  pending w = pre ++ l :: rest -> advances w (consume (S (length pre)) w).
Proof.
  intros H. replace (S (length pre)) with (length (pre ++ [l]))
    by (rewrite length_app; simpl; lia).
  apply (advances_consume _ rest). rewrite <- app_assoc. exact H.
Qed.

Lemma parse_name_advances (w : World) : advances w (snd (parse_name w)).
Proof.
  pose proof (take_drop_while other_property (pending w)) as Hs.
  symmetry in Hs.
  destruct (parse_name_cases w) as [[_ E] | [(l & r & R & _ & E)
                                            | (l & r & gs & R & _ & E)]];
    rewrite E; cbn [snd].
  - exact (advances_consume _ _ _ Hs).
  - rewrite R in Hs. exact (advances_consume_cons _ _ _ _ Hs).
  - rewrite R in Hs. exact (advances_consume_cons _ _ _ _ Hs).
Qed.

Lemma parse_sdist_advances (w : World) : advances w (snd (parse_sdist w)).
Proof.
  pose proof (take_drop_while no_sdist (pending w)) as Hs.
  symmetry in Hs.
  destruct (parse_sdist_cases w) as [[_ E] | [(r & R & E)
                                             | (l & r & gs & R & _ & E)]];
    rewrite E; cbn [snd].
  - exact (advances_consume _ _ _ Hs).
  - exact (advances_consume _ _ _ Hs).
  - rewrite R in Hs. exact (advances_consume_cons _ _ _ _ Hs).
Qed.

Lemma parse_dependency_details_advances (w : World) :
  advances w (snd (parse_dependency_details w)).
Proof.
  unfold parse_dependency_details.
  apply advances_bind; [apply parse_name_advances | intros name w1 _].
  apply advances_bind; [apply parse_sdist_advances | intros sdist w2 _].
  destruct sdist as [[url hex]|]; [|apply advances_here].
  rewrite print_then_skip_rest. cbn [snd].
  eapply advances_print.
  apply (advances_consume _ (drop_while not_header (pending w2))).
  symmetry. apply (take_drop_while not_header (pending w2)).
Qed.

Lemma parse_dependency_advances (w : World) :
  advances w (snd (parse_dependency w)).
Proof.
  destruct (pending w) as [|l ls] eqn:P.
  - unfold parse_dependency.
    rewrite (bind_raise _ _ _ _ _ (next_nil _ P)). apply advances_here.
  - destruct (str_eqb l package_header) eqn:Eh.
    + apply str_eqb_eq in Eh. subst l.
      rewrite (parse_dependency_header _ _ P).
      apply (advances_next _ _ _ _ P).
      apply parse_dependency_details_advances.
    + assert (Hl : l <> package_header).
      { intros ->. rewrite str_eqb_refl in Eh. discriminate. }
      rewrite (parse_dependency_bad _ _ _ P Hl).
      exact (advances_refill _ _ _ P).
Qed.

Lemma read_lockfile_loop_advances (fuel : nat) (w : World) :
  advances w (snd (read_lockfile_loop fuel w)).
Proof.
  revert w; induction fuel as [|fuel IH]; intros w; [apply advances_here|].
  destruct (pending w) as [|l ls] eqn:P.
  - rewrite (read_lockfile_loop_nil _ _ P). apply advances_here.
  - rewrite (read_lockfile_loop_cons _ _ _ _ P).
    apply advances_bind; [apply parse_dependency_advances|].
    intros _ w1 _. apply IH.
Qed.

Lemma main_advances (repr stdin : str) :
  advances (start repr stdin) (snd (main repr stdin)).
Proof.
  rewrite main_start. unfold read_lockfile.
  apply advances_bind.
  - rewrite skip_initial_fields_spec. cbn [snd].
    apply (advances_consume _ (drop_while initial_line
                                 (pending (start repr stdin)))).
    symmetry. apply take_drop_while.
  - intros _ w1 _. apply read_lockfile_loop_advances.
Qed.

Lemma advances_lines_in_all (w w' : World) :
  advances w w' -> lines_in_all w' = lines_in_all w.
Proof.
  induction 1 as [w | w w' l ls P _ IH | w w' s _ IH].
  - reflexivity.
  - rewrite IH. unfold lines_in_all.
    rewrite refill_line, !has_line_pending, P, <- refill_pending.
    rewrite (pending_tail _ _ _ P). cbn [length].
    destruct ls; cbn [length]; lia.
  - rewrite IH. reflexivity.
Qed.

Lemma advances_suffix (w w' : World) :
  advances w w' -> exists consumed, pending w = consumed ++ pending w'.
Proof.
  induction 1 as [w | w w' l ls P _ IH | w w' s _ IH].
  - exists []. reflexivity.
  - destruct IH as [c Hc]. exists (l :: c).
    rewrite P. rewrite (pending_tail _ _ _ P) in Hc. rewrite Hc.
    reflexivity.
  - exact IH.
Qed.

Lemma read_lockfile_loop_done (fuel : nat) (w w' : World) :
  read_lockfile_loop fuel w = (Ret tt, w') -> pending w' = [].
Proof.
  revert w; induction fuel as [|fuel IH]; intros w H; [discriminate|].
  destruct (pending w) as [|l ls] eqn:P.
  - rewrite (read_lockfile_loop_nil _ _ P) in H. injection H as <-. exact P.
  - rewrite (read_lockfile_loop_cons _ _ _ _ P) in H. unfold bind in H.
    destruct (parse_dependency w) as [[[]| e |] w1]; try discriminate.
    exact (IH _ H).
Qed.

(** X20.  A run that ends normally has read the whole input: no line is
    left pending, [has_next] is false, and the reader's line count is the
    number of lines of the input. *)
Theorem successful_run_reads_every_line (repr stdin : str) :
  fst (main repr stdin) = Ret tt ->
  pending (snd (main repr stdin)) = []
  /\ has_line (snd (main repr stdin)) = false
  /\ fst (line (snd (main repr stdin))) =
     Ret (Z.of_nat (length (lines stdin))).
Proof.
  intros H.
  assert (Hp : pending (snd (main repr stdin)) = []).
  { revert H. rewrite main_start. unfold read_lockfile.
    rewrite (bind_ret _ _ _ _ _ (skip_initial_fields_spec _)).
    set (w1 := consume _ _). intros H.
    apply (read_lockfile_loop_done (lines_bound w1) w1).
    destruct (read_lockfile_loop (lines_bound w1) w1) as [r w2].
    cbn [fst snd] in *. subst r. reflexivity. }
  split; [exact Hp|]. split; [rewrite has_line_pending, Hp; reflexivity|].
  pose proof (advances_lines_in_all _ _ (main_advances repr stdin)) as Q.
  unfold lines_in_all in Q.
  rewrite !has_line_pending, Hp, start_pending, start_line in Q.
  unfold line, bind, get_reader, ret. cbn [fst]. f_equal.
  cbn [length] in Q. destruct (lines stdin); cbn [length] in *; lia.
Qed.

Lemma successful_run_reads_every_line_witness :
  pending (snd (main [] example_manifest)) = []
  /\ has_line (snd (main [] example_manifest)) = false
  /\ fst (line (snd (main [] example_manifest))) =
     Ret (Z.of_nat (length (lines example_manifest))).
Proof.
  apply (successful_run_reads_every_line [] example_manifest).
  vm_compute. reflexivity.
Defined.

(** X21.  The walker only moves forward.  Whatever the input and the
    outcome, the lines [main] leaves pending are a tail of the lines of
    the input: what it consumed is a prefix, and no line is consumed twice
    or put back. *)
Theorem main_consumes_a_prefix_of_the_lines (repr stdin : str) :
  exists consumed,
    lines stdin = consumed ++ pending (snd (main repr stdin)).
Proof.
  destruct (advances_suffix _ _ (main_advances repr stdin)) as [c Hc].
  exists c. rewrite <- Hc. symmetry. apply start_pending.
Qed.

(** ** The input matters only through its lines *)

Lemma same_view_refill (w1 w2 : World) l ls :
  same_view w1 w2 -> pending w1 = l :: ls ->
  same_view (refill w1) (refill w2).
Proof.
  intros (Hp & Hc & Hr & Ho) P. assert (P2 := P). rewrite Hp in P2.
  unfold same_view.
  rewrite (pending_tail _ _ _ P), (pending_tail _ _ _ P2).
  rewrite !refill_line, !refill_repr, !refill_stdout.
  rewrite <- !refill_pending.
  rewrite (pending_tail _ _ _ P), (pending_tail _ _ _ P2), Hc.
  auto.
Qed.

Lemma same_view_consume (pre rest : list str) (w1 w2 : World) :
  same_view w1 w2 -> pending w1 = pre ++ rest ->
  same_view (consume (length pre) w1) (consume (length pre) w2).
Proof.
  revert w1 w2; induction pre as [|l pre IH]; intros w1 w2 H P; [exact H|].
  cbn [length consume]. apply IH.
  - exact (same_view_refill _ _ _ _ H P).
  - exact (pending_tail _ _ _ P).
Qed.

Lemma same_view_consume_cons (pre rest : list str) (l : str) (w1 w2 : World) :
  same_view w1 w2 -> pending w1 = pre ++ l :: rest ->
  same_view (consume (S (length pre)) w1) (consume (S (length pre)) w2).
Proof.
  intros H P. replace (S (length pre)) with (length (pre ++ [l]))
    by (rewrite length_app; simpl; lia).
  apply (same_view_consume _ rest _ _ H). rewrite <- app_assoc. exact P.
Qed.

Lemma same_view_print (s : str) (w1 w2 : World) :
  same_view w1 w2 -> same_view (snd (print s w1)) (snd (print s w2)).
Proof.
  intros (Hp & Hc & Hr & Ho). unfold same_view.
  rewrite !print_pending. cbn [print snd reader sys_stdout].
  rewrite Ho. auto.
Qed.

Lemma parse_name_match (pre rest : list str) (l : str) gs (w : World) :
  pending w = pre ++ l :: rest -> forallb other_property pre = true ->
  re_match name_property l = Some gs ->
  parse_name w =
  (Ret (replace hyphen underscore (group 1 gs)), consume (S (length pre)) w).
Proof.
  intros H Hp En. unfold parse_name.
  destruct (lines_bound_split _ _ _ H) as [fuel ->].
  rewrite (parse_name_loop_skips _ _ _ _ H Hp).
  rewrite (parse_name_loop_found _ _ _ _ _ (consume_pending _ _ _ H)
             (name_match_is_property _ _ En) En).
  rewrite consume_S. reflexivity.
Qed.

Lemma parse_name_same_view (w1 w2 : World) :
  same_view w1 w2 ->
  fst (parse_name w1) = fst (parse_name w2)
  /\ same_view (snd (parse_name w1)) (snd (parse_name w2)).
Proof.
  intros V. pose proof V as (Hp & _ & Hr & _).
  pose proof (take_drop_while other_property (pending w1)) as Hs.
  pose proof (take_while_all other_property (pending w1)) as Ha.
  symmetry in Hs.
  destruct (parse_name_cases w1) as [[R E] | [(l & r & R & Hl & E)
                                            | (l & r & gs & R & En & E)]];
    rewrite R in Hs; rewrite E;
    set (pre := take_while other_property (pending w1)) in *;
    assert (Hs2 := Hs); rewrite Hp in Hs2.
  - rewrite app_nil_r in Hs, Hs2. rewrite (parse_name_eof _ _ Hs2 Ha).
    split; [reflexivity|]. cbn [snd].
    apply (same_view_consume _ [] _ _ V). rewrite app_nil_r. exact Hs.
  - rewrite (parse_name_bad _ _ _ _ Hs2 Ha Hl), Hr.
    split; [reflexivity|]. exact (same_view_consume_cons _ _ _ _ _ V Hs).
  - rewrite (parse_name_match _ _ _ _ _ Hs2 Ha En).
    split; [reflexivity|]. exact (same_view_consume_cons _ _ _ _ _ V Hs).
Qed.

Lemma parse_sdist_same_view (w1 w2 : World) :
  same_view w1 w2 ->
  fst (parse_sdist w1) = fst (parse_sdist w2)
  /\ same_view (snd (parse_sdist w1)) (snd (parse_sdist w2)).
Proof.
  intros V. pose proof V as (Hp & _ & _ & _).
  pose proof (take_drop_while no_sdist (pending w1)) as Hs.
  pose proof (take_while_all no_sdist (pending w1)) as Ha.
  symmetry in Hs.
  destruct (parse_sdist_cases w1) as [[R E] | [(r & R & E)
                                             | (l & r & gs & R & Es & E)]];
    rewrite R in Hs; rewrite E;
    set (pre := take_while no_sdist (pending w1)) in *;
    assert (Hs2 := Hs); rewrite Hp in Hs2.
  - rewrite app_nil_r in Hs, Hs2. rewrite (parse_sdist_eof _ _ Hs2 Ha).
    split; [reflexivity|]. cbn [snd].
    apply (same_view_consume _ [] _ _ V). rewrite app_nil_r. exact Hs.
  - rewrite (parse_sdist_header _ _ _ Hs2 Ha).
    split; [reflexivity|]. exact (same_view_consume _ _ _ _ V Hs).
  - rewrite (parse_sdist_found _ _ _ _ _ Hs2 Ha Es).
    split; [reflexivity|]. exact (same_view_consume_cons _ _ _ _ _ V Hs).
Qed.

Lemma same_view_bind {A B} (m : M A) (f : A -> M B) (w1 w2 : World) :
  fst (m w1) = fst (m w2) /\ same_view (snd (m w1)) (snd (m w2)) ->
  (forall a v1 v2, same_view v1 v2 ->
     fst (f a v1) = fst (f a v2) /\ same_view (snd (f a v1)) (snd (f a v2))) ->
  fst (bind m f w1) = fst (bind m f w2)
  /\ same_view (snd (bind m f w1)) (snd (bind m f w2)).
Proof.
  unfold bind. intros [Hf Hv] Hk.
  destruct (m w1) as [r1 v1], (m w2) as [r2 v2]. cbn [fst snd] in *.
  subst r2. destruct r1 as [a| e |]; cbn [fst snd]; auto.
Qed.

Lemma parse_dependency_details_same_view (w1 w2 : World) :
  same_view w1 w2 ->
  fst (parse_dependency_details w1) = fst (parse_dependency_details w2)
  /\ same_view (snd (parse_dependency_details w1))
               (snd (parse_dependency_details w2)).
Proof.
  intros V. unfold parse_dependency_details.
  apply same_view_bind; [exact (parse_name_same_view _ _ V)|].
  intros name v1 v2 V1.
  apply same_view_bind; [exact (parse_sdist_same_view _ _ V1)|].
  intros [[url hex]|] u1 u2 V2; [|split; [reflexivity | exact V2]].
  rewrite !print_then_skip_rest. cbn [fst snd]. split; [reflexivity|].
  pose proof V2 as (Hp & _). rewrite <- Hp.
  apply (same_view_consume _ (drop_while not_header (pending u1))).
  - apply same_view_print, V2.
  - rewrite print_pending. symmetry. apply take_drop_while.
Qed.

Lemma parse_dependency_same_view (w1 w2 : World) :
  same_view w1 w2 ->
  fst (parse_dependency w1) = fst (parse_dependency w2)
  /\ same_view (snd (parse_dependency w1)) (snd (parse_dependency w2)).
Proof.
  intros V. pose proof V as (Hp & _).
  destruct (pending w1) as [|l ls] eqn:P; assert (P2 := eq_sym Hp).
  - unfold parse_dependency.
    rewrite (bind_raise _ _ _ _ _ (next_nil _ P)),
            (bind_raise _ _ _ _ _ (next_nil _ P2)).
    split; [reflexivity | exact V].
  - pose proof (same_view_refill _ _ _ _ V P) as V'.
    destruct (str_eqb l package_header) eqn:Eh.
    + apply str_eqb_eq in Eh. subst l.
      rewrite (parse_dependency_header _ _ P),
              (parse_dependency_header _ _ P2).
      exact (parse_dependency_details_same_view _ _ V').
    + assert (Hl : l <> package_header).
      { intros ->. rewrite str_eqb_refl in Eh. discriminate. }
      rewrite (parse_dependency_bad _ _ _ P Hl),
              (parse_dependency_bad _ _ _ P2 Hl).
      pose proof V' as (_ & Hc & _). rewrite Hc.
      split; [reflexivity | exact V'].
Qed.

Lemma read_lockfile_loop_same_view (f1 f2 : nat) (w1 w2 : World) :
  same_view w1 w2 ->
  length (pending w1) < f1 -> length (pending w1) < f2 ->
  fst (read_lockfile_loop f1 w1) = fst (read_lockfile_loop f2 w2)
  /\ same_view (snd (read_lockfile_loop f1 w1))
               (snd (read_lockfile_loop f2 w2)).
Proof.
  revert f2 w1 w2; induction f1 as [|f1 IH]; intros f2 w1 w2 V H1 H2; [lia|].
  destruct f2 as [|f2]; [lia|]. pose proof V as (Hp & _).
  destruct (pending w1) as [|l ls] eqn:P; assert (P2 := eq_sym Hp).
  - rewrite (read_lockfile_loop_nil _ _ P), (read_lockfile_loop_nil _ _ P2).
    split; [reflexivity | exact V].
  - rewrite (read_lockfile_loop_cons _ _ _ _ P),
            (read_lockfile_loop_cons _ _ _ _ P2).
    destruct (parse_dependency_same_view _ _ V) as [Hf Hv].
    destruct (parse_dependency_settles w1) as [_ Hl].
    unfold bind.
    destruct (parse_dependency w1) as [r1 v1],
             (parse_dependency w2) as [r2 v2]. cbn [fst snd] in *.
    subst r2. destruct r1 as [[]| e |]; cbn [fst snd]; auto.
    specialize (Hl v1 eq_refl). rewrite P in Hl. cbn [length] in *.
    apply IH; [exact Hv | lia | lia].
Qed.

Lemma main_same_lines (repr s1 s2 : str) :
  lines s1 = lines s2 ->
  fst (main repr s1) = fst (main repr s2)
  /\ sys_stdout (snd (main repr s1)) = sys_stdout (snd (main repr s2)).
Proof.
  intros H.
  assert (V : same_view (start repr s1) (start repr s2)).
  { unfold same_view.
    rewrite !start_pending, !start_line, !start_repr, !start_stdout, H.
    auto. }
  rewrite !main_start. unfold read_lockfile.
  rewrite !(bind_ret _ _ _ _ _ (skip_initial_fields_spec _)).
  pose proof V as (Hp & _). rewrite <- Hp.
  set (k := length _).
  assert (V1 : same_view (consume k (start repr s1))
                         (consume k (start repr s2))).
  { apply (same_view_consume _ (drop_while initial_line
                                  (pending (start repr s1))) _ _ V).
    symmetry. apply take_drop_while. }
  destruct (read_lockfile_loop_same_view
              (lines_bound (consume k (start repr s1)))
              (lines_bound (consume k (start repr s2)))
              _ _ V1) as [Hf (_ & _ & _ & Ho)].
  - apply pending_bound.
  - destruct V1 as [-> _]. apply pending_bound.
  - auto.
Qed.

Lemma lines_final_newline (t : str) (c : char) :
  c <> nl -> lines (t ++ [c; nl]) = lines (t ++ [c]).
Proof.
  intros Hc. apply N.eqb_neq in Hc.
  induction t as [|d t IH]; simpl.
  - rewrite Hc. reflexivity.
  - rewrite IH. reflexivity.
Qed.

(** X22.  The input matters only through its lines: two texts that the
    reader splits into the same lines give [main] the same outcome, error
    message included, and the same standard output. *)
Theorem main_depends_only_on_the_lines (repr s1 s2 : str) :
  lines s1 = lines s2 ->
  fst (main repr s1) = fst (main repr s2)
  /\ sys_stdout (snd (main repr s1)) = sys_stdout (snd (main repr s2)).
Proof. exact (main_same_lines repr s1 s2). Qed.

Lemma main_depends_only_on_the_lines_witness :
  fst (main [] (lit "version = 1")) =
    fst (main [] (unlines [lit "version = 1"]))
  /\ sys_stdout (snd (main [] (lit "version = 1"))) =
     sys_stdout (snd (main [] (unlines [lit "version = 1"]))).
Proof.
  apply (main_depends_only_on_the_lines [] (lit "version = 1")
           (unlines [lit "version = 1"])).
  vm_compute. reflexivity.
Defined.

(** X23.  The newline after the last line is optional: a text that ends
    in a character other than a newline gives [main] the same outcome and
    the same standard output as that text with a newline added. *)
Theorem final_newline_is_optional (repr t : str) (c : char) :
  c <> nl ->
  fst (main repr (t ++ [c; nl])) = fst (main repr (t ++ [c]))
  /\ sys_stdout (snd (main repr (t ++ [c; nl]))) =
     sys_stdout (snd (main repr (t ++ [c]))).
Proof.
  intros Hc. apply main_same_lines. exact (lines_final_newline t c Hc).
Qed.

Lemma final_newline_is_optional_witness :
  fst (main [] (lit "a = " ++ [49%N; nl])) =
    fst (main [] (lit "a = " ++ [49%N]))
  /\ sys_stdout (snd (main [] (lit "a = " ++ [49%N; nl]))) =
     sys_stdout (snd (main [] (lit "a = " ++ [49%N]))).
Proof.
  apply (final_newline_is_optional [] (lit "a = ") 49%N).
  discriminate.
Defined.

(** ** Manifests that mix packages and bare records *)

Lemma entry_lines_header (e : entry) :
  exists ls, entry_lines e = package_header :: ls.
Proof. destruct e; cbn [entry_lines package_lines]; eexists; reflexivity. Qed.

(** The outer loop over records that are followed by a further header. *)
Lemma read_lockfile_loop_entries (es : list entry) (more : list str) :
  forallb entry_ok es = true ->
  forall w,
    pending w = concat (map entry_lines es) ++ package_header :: more ->
    Forall (fun l => ~ In nl l) (pending w) ->
    exists w',
      pending w' = package_header :: more
      /\ sys_stdout w' = sys_stdout w ++ concat (map entry_block es)
      /\ self_repr (reader w') = self_repr (reader w)
      /\ forall fuel,
           read_lockfile_loop (length es + fuel) w =
           read_lockfile_loop fuel w'.
Proof.
  induction es as [|e es IH]; intros Hok w H Hnl.
  - exists w. cbn [map concat app] in *. rewrite app_nil_r. auto.
  - simpl in Hok. apply andb_true_iff in Hok. destruct Hok as [He Hok].
    cbn [map concat] in H. rewrite <- app_assoc in H.
    assert (Hb : exists ls,
               concat (map entry_lines es) ++ package_header :: more =
               package_header :: ls).
    { destruct es as [|e' es]; [eexists; reflexivity|].
      cbn [map concat]. destruct (entry_lines_header e') as [ls ->].
      cbn [app]. eexists. reflexivity. }
    destruct Hb as [ls Hb].
    rewrite H in Hnl. apply Forall_app in Hnl. destruct Hnl as [Hnl1 Hnl2].
    assert (Hstep : exists w1,
               parse_dependency w = (Ret tt, w1)
               /\ sys_stdout w1 = sys_stdout w ++ entry_block e
               /\ pending w1 =
                  concat (map entry_lines es) ++ package_header :: more
               /\ self_repr (reader w1) = self_repr (reader w)).
    { destruct e as [p | before v between].
      - apply (parse_dependency_package p _ w H Hnl1 He).
        right. exists ls. exact Hb.
      - cbn [entry_ok] in He. apply andb_true_iff in He.
        destruct He as [Hbf Hbt]. cbn [entry_lines] in H, Hnl1.
        assert (Hv : ~ In nl v).
        { inversion Hnl1 as [|? ? _ Hn]; subst.
          apply Forall_app in Hn. destruct Hn as [_ Hn].
          inversion Hn as [|? ? Hn' _]; subst.
          intros Hin. apply Hn', in_name_line, Hin. }
        assert (H' : pending w =
                     package_header :: before ++ name_line v :: between
                     ++ package_header :: ls).
        { rewrite H, Hb. cbn [app]. rewrite <- app_assoc. reflexivity. }
        eexists. split.
        + rewrite (parse_dependency_header _ _ H').
          exact (parse_dependency_details_header _ _ _ _ _
                   (pending_tail _ _ _ H') Hbf Hv Hbt).
        + cbn [entry_block]. rewrite app_nil_r.
          rewrite !consume_stdout, refill_stdout.
          rewrite !consume_repr, refill_repr.
          split; [reflexivity|]. split; [|reflexivity].
          rewrite Hb.
          apply (consume_pending between (package_header :: ls)).
          apply (consume_pending_cons before
                   (between ++ package_header :: ls) (name_line v)).
          exact (pending_tail _ _ _ H'). }
    destruct Hstep as (w1 & E & Ho & Hq & Hrepr).
    destruct (IH Hok w1 Hq) as (w' & Hq' & Ho' & Hrepr' & Hloop);
      [rewrite Hq; exact Hnl2|].
    exists w'. split; [exact Hq'|]. split; [|split].
    + rewrite Ho', Ho. cbn [map concat]. rewrite <- app_assoc. reflexivity.
    + rewrite Hrepr', Hrepr. reflexivity.
    + intros fuel. cbn [length Nat.add].
      assert (Hc : exists l t, pending w = l :: t).
      { rewrite H. destruct (entry_lines_header e) as [t ->].
        cbn [app]. eauto. }
      destruct Hc as (l & t & Hc).
      rewrite (read_lockfile_loop_cons _ _ _ _ Hc).
      rewrite (bind_ret _ _ _ _ _ E). apply Hloop.
Qed.

Lemma entries_length (es : list entry) :
  length es <= length (concat (map entry_lines es)).
Proof.
  induction es as [|e es IH]; simpl; [lia|].
  rewrite length_app. destruct (entry_lines_header e) as [ls ->].
  simpl. lia.
Qed.

(** The start of a run on a preamble followed by records and a further
    header. *)
Lemma main_entries (repr stdin : str) (preamble more : list str)
      (es : list entry) :
  lines stdin =
    preamble ++ concat (map entry_lines es) ++ package_header :: more ->
  forallb initial_line preamble = true ->
  forallb entry_ok es = true ->
  exists w' fuel,
    main repr stdin = read_lockfile_loop (S fuel) w'
    /\ length more < S fuel
    /\ pending w' = package_header :: more
    /\ sys_stdout w' = concat (map entry_block es)
    /\ self_repr (reader w') = repr
    /\ Forall (fun l => ~ In nl l) (package_header :: more).
Proof.
  intros H Hpre Hok. rewrite main_start. unfold read_lockfile.
  pose proof (start_pending repr stdin) as H0. rewrite H in H0.
  assert (Hstop : match concat (map entry_lines es)
                        ++ package_header :: more with
                  | [] => True
                  | l :: _ => initial_line l = false
                  end).
  { destruct es as [|e es]; [reflexivity|]. cbn [map concat].
    destruct (entry_lines_header e) as [ls ->]. reflexivity. }
  rewrite (bind_ret _ _ _ _ _ (skip_initial_fields_run _ _ _ H0 Hpre Hstop)).
  set (w1 := consume (length preamble) (start repr stdin)).
  pose proof (consume_pending _ _ _ H0 : pending w1 = _) as H1.
  pose proof (lines_no_nl stdin) as Hnl. rewrite H in Hnl.
  apply Forall_app in Hnl. destruct Hnl as [_ Hnl].
  destruct (read_lockfile_loop_entries es more Hok w1 H1)
    as (w2 & H2 & Ho & Hrepr & Hloop); [rewrite H1; exact Hnl|].
  pose proof (pending_bound w1) as B. rewrite H1, length_app in B.
  pose proof (entries_length es) as Le. cbn [length] in B.
  exists w2, (lines_bound w1 - length es - 1).
  replace (lines_bound w1)
    with (length es + S (lines_bound w1 - length es - 1)) at 1 by lia.
  rewrite Hloop. split; [reflexivity|]. split; [lia|].
  split; [exact H2|]. split; [|split].
  - rewrite Ho. unfold w1. rewrite consume_stdout, start_stdout. reflexivity.
  - rewrite Hrepr. unfold w1. rewrite consume_repr. apply start_repr.
  - apply Forall_app in Hnl. tauto.
Qed.

(** X24.  Records without an sdist line of the hash form are passed over
    wherever a further record follows: on a preamble, any mix of
    well-formed packages and bare records, and a final well-formed
    package, [main] ends normally and standard output holds the blocks of
    the packages, in order, and nothing for the bare records. *)
Theorem main_passes_over_bare_records
        (repr stdin : str) (preamble : list str) (es : list entry)
        (p : package) :
  lines stdin = preamble ++ concat (map entry_lines es) ++ package_lines p ->
  forallb initial_line preamble = true ->
  forallb entry_ok es = true ->
  well_formed p = true ->
  fst (main repr stdin) = Ret tt
  /\ sys_stdout (snd (main repr stdin)) =
     concat (map entry_block es) ++ package_block p.
Proof.
  intros H Hpre Hok Hp.
  destruct (main_entries repr stdin preamble _ es H Hpre Hok)
    as (w' & fuel & -> & Hf & Hq & Ho & _ & Hnl).
  destruct (read_lockfile_loop_packages [p] w' (S fuel))
    as (w'' & E & Ho' & _).
  - rewrite Hq. cbn [map concat]. rewrite app_nil_r. reflexivity.
  - rewrite Hq. exact Hnl.
  - cbn [forallb]. rewrite Hp. reflexivity.
  - simpl. unfold package_lines in Hf. simpl in Hf.
    rewrite length_app in Hf. simpl in Hf. lia.
  - rewrite E. cbn [fst snd]. split; [reflexivity|].
    rewrite Ho', Ho. cbn [map concat]. rewrite app_nil_r. reflexivity.
Qed.

Lemma main_passes_over_bare_records_witness :
  fst (main [] manifest_mixed) = Ret tt
  /\ sys_stdout (snd (main [] manifest_mixed)) =
     concat (map entry_block
               [WithSdist example_package;
                Bare [] (lit "root") [lit "source = { virtual = 1 }"; []]])
     ++ package_block example_package.
Proof.
  apply (main_passes_over_bare_records [] manifest_mixed []
           [WithSdist example_package;
            Bare [] (lit "root") [lit "source = { virtual = 1 }"; []]]
           example_package);
    vm_compute; reflexivity.
Defined.

(** X25.  A bare record at the very end of the input is fatal, after the
    output for the records before it: on a preamble, any mix of
    well-formed packages and bare records, and a last record with a name
    and no sdist line of the hash form, [main] raises the [ValueError] of
    the truncated sdist scan, and standard output holds the blocks of the
    packages before it. *)
Theorem main_fails_on_a_final_bare_record
        (repr stdin : str) (preamble before between : list str)
        (es : list entry) (v : str) :
  lines stdin =
    preamble ++ concat (map entry_lines es)
    ++ package_header :: before ++ name_line v :: between ->
  forallb initial_line preamble = true ->
  forallb entry_ok es = true ->
  forallb other_property before = true ->
  forallb no_sdist between = true ->
  fst (main repr stdin) =
    Raise (ValueError (lit "Unexpected EOF while parsing sdist."))
  /\ sys_stdout (snd (main repr stdin)) = concat (map entry_block es).
Proof.
  intros H Hpre Hok Hb Hm.
  destruct (main_entries repr stdin preamble _ es H Hpre Hok)
    as (w' & fuel & -> & _ & Hq & Ho & _ & Hnl).
  assert (Hv : ~ In nl v).
  { inversion Hnl as [|? ? _ Hn]; subst.
    apply Forall_app in Hn. destruct Hn as [_ Hn].
    inversion Hn as [|? ? Hn' _]; subst.
    intros Hin. apply Hn', in_name_line, Hin. }
  rewrite (read_lockfile_loop_cons _ _ _ _ Hq).
  assert (E := parse_dependency_details_eof _ _ _ _
                 (pending_tail _ _ _ Hq) Hb Hv Hm).
  rewrite <- (parse_dependency_header _ _ Hq) in E.
  rewrite (bind_raise _ _ _ _ _ E). cbn [fst snd].
  split; [reflexivity|].
  rewrite !consume_stdout, refill_stdout. exact Ho.
Qed.

Lemma main_fails_on_a_final_bare_record_witness :
  fst (main [] manifest_ending_bare) =
    Raise (ValueError (lit "Unexpected EOF while parsing sdist."))
  /\ sys_stdout (snd (main [] manifest_ending_bare)) =
     concat (map entry_block [WithSdist example_package]).
Proof.
  apply (main_fails_on_a_final_bare_record [] manifest_ending_bare
           [] [] [lit "source = { virtual = 1 }"]
           [WithSdist example_package] (lit "root"));
    vm_compute; reflexivity.
Defined.
